(** * ServerClient: the endpoint facade of the Postmark server client

    A shallow embedding of [src/client/ServerClient.ts].  Every method of
    the class fixes a verb, a path and a payload and hands them to one of
    the two request methods it inherits from [BaseClient].

    - JavaScript objects live in a heap and are passed by reference; an
      object literal allocates.  The own enumerable properties of an object
      are a finite map from keys to values; the order of the keys is not
      part of the model.
    - A method body is a program over a few steps: allocate an object, read
      or define properties, call an inherited request method.  A program is
      run against a dispatcher, which stands for the inherited methods, and
      the run records every call made to it.
    - There are two interpreters of these programs.  [run] works on heaps
      whose objects have data properties only, where reading a property
      cannot fail.  [runA] works on heaps whose objects may have accessor
      properties, whose getters run when a filter is spread and may raise;
      on heaps of data objects the two agree ([runA_liftWorld]).
    - [BaseClient] itself is not among the sources.  The facade is stated
      and proved for an arbitrary dispatcher; where a property is about
      what the dispatcher does (headers, callbacks, serialisation) a
      dispatcher written after the specification is used, in
      [Module BaseClient].
    - Numbers are the integral ones.  A safe integer is rendered by its
      decimal digits; the rendering of an integer beyond the safe range is
      a parameter ([NumberRendering]).  A deferred result is identified
      with the way it settles. *)

From Stdlib Require Import Ascii.
From stdpp Require Import base option strings gmap fin_maps pretty.

Local Open Scope Z_scope.
Local Open Scope string_scope.
Local Open Scope list_scope.

(** ** Values, objects and the heap *)

(** Object identity. *)
Abbreviation loc := positive.

(** A function value passed as [callback]: only its identity matters. *)
Inductive Callback : Type :=
| Fn (id : positive).

(** JavaScript values.  Numbers are the integral ones (identifiers,
    counts, offsets, status codes). *)
Inductive value : Type :=
| VUndefined
| VNull
| VBool (b : bool)
| VNum (n : Z)
| VStr (s : string)
| VRef (l : loc).

#[global] Instance Callback_eq_dec : EqDecision Callback.
Proof. solve_decision. Defined.

#[global] Instance value_eq_dec : EqDecision value.
Proof. solve_decision. Defined.

(** The own enumerable properties of an object, as a finite map. *)
Abbreviation obj := (gmap string value).

(** The object store. *)
Abbreviation Heap := (gmap positive (gmap string value)).

(** Own properties of the object at [l]; a location that holds no object
    has none. *)
Definition ownProps (h : Heap) (l : loc) : obj := default ∅ (h !! l).

(** Spreading [source] into an object under construction: every own
    property of [source] is defined on the target, replacing a property of
    the same key ([{...target, ...source}]). *)
Definition spread (target source : obj) : obj := source ∪ target.

(** [ToString] as a template literal applies it to a substitution. *)
Class ToString (A : Type) : Type := toString : A → string.

#[global] Instance string_ToString : ToString string := λ s, s.

(** The safe integers, from [-(2^53 - 1)] to [2^53 - 1]: the integral
    numbers that a double holds exactly together with their neighbours. *)
Definition isSafeInteger (n : Z) : bool :=
  ((- (2 ^ 53 - 1) <=? n) && (n <=? 2 ^ 53 - 1))%Z.

(** The rendering of an integral number beyond the safe integers (digits
    rounded to the nearest double, exponent notation from [1e21] on) is not
    computed here: it is a parameter of the development. *)
Class NumberRendering : Type := renderBeyondSafe : Z → string.

(** [Number::toString] on an integral number.  A safe integer is rendered
    by its decimal digits, with a leading minus sign below zero. *)
#[global] Instance number_ToString {nr : NumberRendering} : ToString Z :=
  λ n, if isSafeInteger n then pretty n else renderBeyondSafe n.

(** A rendering to run the methods with: plain digits everywhere. *)
Definition plainDigits : NumberRendering := λ n, pretty n.

(** ** Requests handed to the dispatcher *)

(** Modelled from the spec: the [HttpMethod] enumeration is declared in
    [./models/index], which is not part of the sources; these are the
    verbs of the external-interface table. *)
Inductive HttpMethod : Type := GET | POST | PUT.

#[global] Instance HttpMethod_eq_dec : EqDecision HttpMethod.
Proof. solve_decision. Defined.

(** One call of an inherited request method, with its arguments in the
    order of the call. *)
Inductive DispatchCall : Type :=
| ProcessRequestWithBody
    (method : HttpMethod) (path : string) (body : value)
    (callback : option Callback)
| ProcessRequestWithoutBody
    (method : HttpMethod) (path : string) (queryParameters : value)
    (callback : option Callback).

#[global] Instance DispatchCall_eq_dec : EqDecision DispatchCall.
Proof. solve_decision. Defined.

Definition call_method (c : DispatchCall) : HttpMethod :=
  match c with
  | ProcessRequestWithBody m _ _ _ | ProcessRequestWithoutBody m _ _ _ => m
  end.

Definition call_path (c : DispatchCall) : string :=
  match c with
  | ProcessRequestWithBody _ p _ _ | ProcessRequestWithoutBody _ p _ _ => p
  end.

Definition call_payload (c : DispatchCall) : value :=
  match c with
  | ProcessRequestWithBody _ _ v _ | ProcessRequestWithoutBody _ _ v _ => v
  end.

Definition call_callback (c : DispatchCall) : option Callback :=
  match c with
  | ProcessRequestWithBody _ _ _ cb | ProcessRequestWithoutBody _ _ _ cb => cb
  end.

(** A deferred result, identified with the way it settles. *)
Inductive Promise : Type :=
| Fulfilled (result : value)
| Rejected (error : value).

#[global] Instance Promise_eq_dec : EqDecision Promise.
Proof. solve_decision. Defined.

(** How an evaluation ends: with a value, or by raising. *)
Inductive Completion (R : Type) : Type :=
| Normal (r : R)
| Abrupt (thrown : value).
Arguments Normal {R} r.
Arguments Abrupt {R} thrown.

(** A dispatcher answers a call by returning a promise or by raising; it
    may change the heap and its own state. *)
Definition Dispatcher (Ext : Type) : Type :=
  DispatchCall → Heap → Ext → Completion Promise * Heap * Ext.

(** Allocation of a new object. *)
Definition alloc (h : Heap) (o : obj) : loc * Heap :=
  let l := fresh (dom h) in (l, <[l := o]> h).

(** ** The inherited dispatcher *)

(** What goes on the wire for a value: a primitive as it is, an object as
    the properties it has when the request is built. *)
Inductive Serialized : Type :=
| SPrim (v : value)
| SObject (o : gmap string value).

Definition serialize (h : Heap) (v : value) : Serialized :=
  match v with
  | VRef l => SObject (ownProps h l)
  | _ => SPrim v
  end.

Record HttpRequest : Type := mkHttpRequest {
  rq_method : HttpMethod;
  rq_path : string;
  rq_headers : list (string * string);
  rq_query : option Serialized;
  rq_body : option Serialized
}.

(** The remote service's answer to a request, or the failure of the
    transport. *)
Inductive HttpReply : Type :=
| Reply (status : Z) (parsed : value) (errorCode : Z) (message : string)
| NoReply (failure : value).

(** One invocation of a legacy callback, [callback(error, result)]. *)
Record CallbackCall : Type := mkCallbackCall {
  cc_callback : Callback;
  cc_error : value;
  cc_result : value
}.

(** What lies behind the dispatcher: the requests sent so far and the
    callback invocations made so far. *)
Record Net : Type := mkNet {
  sent : list HttpRequest;
  callbacks : list CallbackCall
}.

Module BaseClient.

(** Modelled from the spec: the class [BaseClient] ([./BaseClient]) is not
    part of the sources.  Its state is the credentials and the client
    configuration of the spec's data model, "set once at construction,
    read-only thereafter". *)
Record t : Type := mk {
  token : string;
  authHeader : string;
  clientOptions : option value
}.

(** Modelled from the spec: the constructor of [BaseClient], which is not
    part of the sources, stores the token, the name of the header that
    carries it and the options. *)
Definition constructor
    (token authHeader : string) (options : option value) : t :=
  mk token authHeader options.

Definition is2xx (status : Z) : bool :=
  ((200 <=? status) && (status <? 300))%Z.

(** Modelled from the spec: the structured error of a response outside
    2xx, "status code + remote error code + message". *)
Definition apiError (status errorCode : Z) (message : string) : obj :=
  {[ "status" := VNum status;
     "code" := VNum errorCode;
     "message" := VStr message ]}.

(** Modelled from the spec: the arguments with which a supplied callback
    is invoked, "(null, result)" or "(error, undefined)". *)
Definition callbackCall (f : Callback) (p : Promise) : CallbackCall :=
  match p with
  | Fulfilled result => mkCallbackCall f VNull result
  | Rejected error => mkCallbackCall f error VUndefined
  end.

Section Dispatch.
(** The remote service and the transport. *)
Variable remote : HttpRequest → HttpReply.
Variable this : t.

(** Modelled from the spec: the request of a dispatcher call.  Both
    request methods "attach the configured authentication header" and
    "serialize query parameters or body as appropriate". *)
Definition request (c : DispatchCall) (h : Heap) : HttpRequest :=
  match c with
  | ProcessRequestWithBody method path body _ =>
      mkHttpRequest method path [(authHeader this, token this)]
        None (Some (serialize h body))
  | ProcessRequestWithoutBody method path queryParameters _ =>
      mkHttpRequest method path [(authHeader this, token this)]
        (Some (serialize h queryParameters)) None
  end.

(** Modelled from the spec: the deferred result of an exchange,
    "resolve with the parsed response on a 2xx status or reject with a
    structured error otherwise"; a failure of the transport is
    "surfaced unchanged". *)
Definition settle (reply : HttpReply) (h : Heap) : Promise * Heap :=
  match reply with
  | Reply status parsed errorCode message =>
      if is2xx status then (Fulfilled parsed, h)
      else
        let '(l, h') := alloc h (apiError status errorCode message) in
        (Rejected (VRef l), h')
  | NoReply failure => (Rejected failure, h)
  end.

(** Modelled from the spec: [processRequestWithBody] and
    [processRequestWithoutBody] of [BaseClient], which are not part of
    the sources: one HTTP exchange, one deferred result, and one
    invocation of the callback if one is supplied. *)
Definition processRequest : Dispatcher Net :=
  λ c h net,
    let rq := request c h in
    let '(p, h') := settle (remote rq) h in
    let cbs :=
      match call_callback c with
      | Some f => [callbackCall f p]
      | None => []
      end in
    (Normal p, h', mkNet (sent net ++ [rq]) (callbacks net ++ cbs)).
End Dispatch.

End BaseClient.

(** ** Facade programs *)

(** The steps a method body can take: allocate an object, read the own
    properties of one, define properties on one, call an inherited request
    method, raise. *)
Inductive Prog (R : Type) : Type :=
| Ret (r : R)
| Throw (e : value)
| NewObject (o : gmap string value) (k : loc → Prog R)
| OwnProps (l : loc) (k : gmap string value → Prog R)
| DefineProps (l : loc) (o : gmap string value) (k : Prog R)
| Call (c : DispatchCall) (k : Promise → Prog R).
Arguments Ret {R} r.
Arguments Throw {R} e.
Arguments NewObject {R} o k.
Arguments OwnProps {R} l k.
Arguments DefineProps {R} l o k.
Arguments Call {R} c k.

Fixpoint bind {A B : Type} (p : Prog A) (f : A → Prog B) : Prog B :=
  match p with
  | Ret r => f r
  | Throw e => Throw e
  | NewObject o k => NewObject o (λ l, bind (k l) f)
  | OwnProps l k => OwnProps l (λ o, bind (k o) f)
  | DefineProps l o k => DefineProps l o (bind k f)
  | Call c k => Call c (λ r, bind (k r) f)
  end.

#[global] Instance Prog_ret : MRet Prog := λ _ r, Ret r.
#[global] Instance Prog_bind : MBind Prog := λ _ _ f p, bind p f.

(** An object literal [{k1: v1, ...}] without spread elements. *)
Definition newObject (o : obj) : Prog loc := NewObject o Ret.

(** A spread element [...source] inside the literal that builds [target]:
    the own properties of [source] are read, by [Get] on each, and defined
    on [target].  What the reading does depends on the objects: on a heap
    of data properties ([run]) it yields the properties; on a heap that has
    accessor properties ([runA]) it runs their getters and raises when one
    of them does. *)
Definition copyDataProperties (target source : loc) : Prog unit :=
  OwnProps source (λ o, DefineProps target o (Ret ())).

(** A parameter declared with the default [{}]: the default is evaluated
    when the argument is omitted or [undefined]. *)
Definition orEmptyObject (arg : option loc) : Prog loc :=
  match arg with
  | Some l => mret l
  | None => newObject ∅
  end.

Definition processRequestWithBody
    (method : HttpMethod) (path : string) (body : value)
    (callback : option Callback) : Prog Promise :=
  Call (ProcessRequestWithBody method path body callback) Ret.

Definition processRequestWithoutBody
    (method : HttpMethod) (path : string) (queryParameters : value)
    (callback : option Callback) : Prog Promise :=
  Call (ProcessRequestWithoutBody method path queryParameters callback) Ret.

(** ** The methods of [ServerClient] *)

Module ServerClient.

(** [constructor(serverToken, options)]: the call of [super] with the
    name of the server-token header.  [SERVER_TOKEN] stands for
    [DefaultHeaderNames.SERVER_TOKEN], a constant declared in
    [./models/index], which is not part of the sources. *)
Definition constructor
    (SERVER_TOKEN : string) (serverToken : string) (options : option value)
  : BaseClient.t :=
  BaseClient.constructor serverToken SERVER_TOKEN options.

(** The literal [{count: 100, offset: 0}]. *)
Definition paging : obj := {[ "count" := VNum 100; "offset" := VNum 0 ]}.

(** The expression [{...{count: 100, offset: 0}, ...filter}]. *)
Definition withPaging (filter : loc) : Prog loc :=
  merged ← newObject ∅;
  defaults ← newObject paging;
  copyDataProperties merged defaults;;
  copyDataProperties merged filter;;
  mret merged.

Definition sendEmail (message : value) (callback : option Callback)
  : Prog Promise :=
  processRequestWithBody POST "/email" message callback.

Definition sendEmailBatch (messages : value) (callback : option Callback)
  : Prog Promise :=
  processRequestWithBody POST "/email/batch" messages callback.

Definition getDeliveryStatistics (callback : option Callback)
  : Prog Promise :=
  q ← newObject ∅;
  processRequestWithoutBody GET "/deliverystats" (VRef q) callback.

Definition getBounces (filter : option loc) (callback : option Callback)
  : Prog Promise :=
  filter ← orEmptyObject filter;
  filter ← withPaging filter;
  processRequestWithoutBody GET "/bounces" (VRef filter) callback.

Definition getBounce {nr : NumberRendering} (id : Z)
    (callback : option Callback) : Prog Promise :=
  q ← newObject ∅;
  processRequestWithoutBody GET ("/bounces/" +:+ toString id) (VRef q)
    callback.

Definition getBounceDump {nr : NumberRendering} (id : Z)
    (callback : option Callback) : Prog Promise :=
  q ← newObject ∅;
  processRequestWithoutBody GET ("/bounces/" +:+ toString id +:+ "/dump")
    (VRef q) callback.

Definition activateBounce {nr : NumberRendering} (id : Z)
    (callback : option Callback) : Prog Promise :=
  b ← newObject ∅;
  processRequestWithBody PUT ("/bounces/" +:+ toString id +:+ "/activate")
    (VRef b) callback.

Definition getBounceTags (callback : option Callback) : Prog Promise :=
  q ← newObject ∅;
  processRequestWithoutBody GET "/bounces/tags" (VRef q) callback.

Definition getServer (callback : option Callback) : Prog Promise :=
  q ← newObject ∅;
  processRequestWithoutBody GET "/server" (VRef q) callback.

Definition editServer (options : value) (callback : option Callback)
  : Prog Promise :=
  processRequestWithBody PUT "/server" options callback.

Definition getOutboundMessages
    (filter : option loc) (callback : option Callback) : Prog Promise :=
  filter ← orEmptyObject filter;
  filter ← withPaging filter;
  processRequestWithoutBody GET "/messages/outbound" (VRef filter) callback.

Definition getOutboundMessageDetails
    (messageId : string) (callback : option Callback) : Prog Promise :=
  q ← newObject ∅;
  processRequestWithoutBody GET
    ("/messages/outbound/" +:+ toString messageId) (VRef q) callback.

Definition getOutboundMessageDump
    (messageId : string) (callback : option Callback) : Prog Promise :=
  q ← newObject ∅;
  processRequestWithoutBody GET
    ("/messages/outbound/" +:+ toString messageId +:+ "/dump") (VRef q)
    callback.

Definition getInboundMessages
    (filter : option loc) (callback : option Callback) : Prog Promise :=
  filter ← orEmptyObject filter;
  filter ← withPaging filter;
  processRequestWithoutBody GET "/messages/inbound" (VRef filter) callback.

Definition getInboundMessageDetails
    (messageId : string) (callback : option Callback) : Prog Promise :=
  q ← newObject ∅;
  processRequestWithoutBody GET
    ("/messages/inbound/" +:+ toString messageId +:+ "/details") (VRef q)
    callback.

Definition bypassBlockedInboundMessage
    (messageId : string) (callback : option Callback) : Prog Promise :=
  q ← newObject ∅;
  processRequestWithoutBody PUT
    ("/messages/inbound/" +:+ toString messageId +:+ "/bypass") (VRef q)
    callback.

Definition retryInboundHookForMessage
    (messageId : string) (callback : option Callback) : Prog Promise :=
  q ← newObject ∅;
  processRequestWithoutBody PUT
    ("/messages/inbound/" +:+ toString messageId +:+ "/retry") (VRef q)
    callback.

End ServerClient.

(** One invocation of a method of the class, with its arguments. *)
Inductive Invocation : Type :=
| SendEmail (message : value) (callback : option Callback)
| SendEmailBatch (messages : value) (callback : option Callback)
| GetDeliveryStatistics (callback : option Callback)
| GetBounces (filter : option loc) (callback : option Callback)
| GetBounce (id : Z) (callback : option Callback)
| GetBounceDump (id : Z) (callback : option Callback)
| ActivateBounce (id : Z) (callback : option Callback)
| GetBounceTags (callback : option Callback)
| GetServer (callback : option Callback)
| EditServer (options : value) (callback : option Callback)
| GetOutboundMessages (filter : option loc) (callback : option Callback)
| GetOutboundMessageDetails (messageId : string) (callback : option Callback)
| GetOutboundMessageDump (messageId : string) (callback : option Callback)
| GetInboundMessages (filter : option loc) (callback : option Callback)
| GetInboundMessageDetails (messageId : string) (callback : option Callback)
| BypassBlockedInboundMessage
    (messageId : string) (callback : option Callback)
| RetryInboundHookForMessage
    (messageId : string) (callback : option Callback).

Definition invoke {nr : NumberRendering} (i : Invocation)
  : Prog Promise :=
  match i with
  | SendEmail m cb => ServerClient.sendEmail m cb
  | SendEmailBatch ms cb => ServerClient.sendEmailBatch ms cb
  | GetDeliveryStatistics cb => ServerClient.getDeliveryStatistics cb
  | GetBounces f cb => ServerClient.getBounces f cb
  | GetBounce id cb => ServerClient.getBounce id cb
  | GetBounceDump id cb => ServerClient.getBounceDump id cb
  | ActivateBounce id cb => ServerClient.activateBounce id cb
  | GetBounceTags cb => ServerClient.getBounceTags cb
  | GetServer cb => ServerClient.getServer cb
  | EditServer o cb => ServerClient.editServer o cb
  | GetOutboundMessages f cb => ServerClient.getOutboundMessages f cb
  | GetOutboundMessageDetails id cb =>
      ServerClient.getOutboundMessageDetails id cb
  | GetOutboundMessageDump id cb => ServerClient.getOutboundMessageDump id cb
  | GetInboundMessages f cb => ServerClient.getInboundMessages f cb
  | GetInboundMessageDetails id cb =>
      ServerClient.getInboundMessageDetails id cb
  | BypassBlockedInboundMessage id cb =>
      ServerClient.bypassBlockedInboundMessage id cb
  | RetryInboundHookForMessage id cb =>
      ServerClient.retryInboundHookForMessage id cb
  end.

Definition invocation_callback (i : Invocation) : option Callback :=
  match i with
  | SendEmail _ cb | SendEmailBatch _ cb | GetDeliveryStatistics cb
  | GetBounces _ cb | GetBounce _ cb | GetBounceDump _ cb
  | ActivateBounce _ cb | GetBounceTags cb | GetServer cb | EditServer _ cb
  | GetOutboundMessages _ cb | GetOutboundMessageDetails _ cb
  | GetOutboundMessageDump _ cb | GetInboundMessages _ cb
  | GetInboundMessageDetails _ cb | BypassBlockedInboundMessage _ cb
  | RetryInboundHookForMessage _ cb => cb
  end.

(** ** Running a facade program against a dispatcher *)

(** The state a program runs in: the heap, the state of whatever lies
    behind the dispatcher, and the record of the calls made to the
    dispatcher, each with the heap it was made in. *)
Record World (Ext : Type) : Type := mkWorld {
  heap : Heap;
  ext : Ext;
  trace : list (DispatchCall * Heap)
}.
Arguments mkWorld {Ext} heap ext trace.
Arguments heap {Ext} w.
Arguments ext {Ext} w.
Arguments trace {Ext} w.

(** Defining the properties [o] on the object at [l]. *)
Definition define (h : Heap) (l : loc) (o : obj) : Heap :=
  <[l := spread (ownProps h l) o]> h.

(** A run of a program.  A call that raises ends the run; a call that
    returns is recorded and the program goes on with the promise. *)
Fixpoint run {Ext R : Type} (d : Dispatcher Ext) (p : Prog R) (w : World Ext)
  : Completion R * World Ext :=
  match p with
  | Ret r => (Normal r, w)
  | Throw e => (Abrupt e, w)
  | NewObject o k =>
      let '(l, h) := alloc (heap w) o in
      run d (k l) (mkWorld h (ext w) (trace w))
  | OwnProps l k => run d (k (ownProps (heap w) l)) w
  | DefineProps l o k =>
      run d k (mkWorld (define (heap w) l o) (ext w) (trace w))
  | Call c k =>
      let '(r, h, e) := d c (heap w) (ext w) in
      let w' := mkWorld h e (trace w ++ [(c, heap w)]) in
      match r with
      | Normal p => run d (k p) w'
      | Abrupt thrown => (Abrupt thrown, w')
      end
  end.


Definition after {Ext R} (d : Dispatcher Ext) (p : Prog R) (w : World Ext)
  : World Ext := (run d p w).2.

(** The calls a run adds to the record. *)
Definition issued {Ext R} (d : Dispatcher Ext) (p : Prog R) (w : World Ext)
  : list (DispatchCall * Heap) :=
  drop (length (trace w)) (trace (after d p w)).

(** The properties of the object a call passes, as they are when the call
    is made. *)
Definition sentProps (e : DispatchCall * Heap) : obj :=
  match call_payload e.1 with
  | VRef l => ownProps e.2 l
  | _ => ∅
  end.

(** The heap in which [{...{count: 100, offset: 0}, ...filter}] leaves its
    result, and the location of the result. *)
Definition pagingHeap (h : Heap) (filter : loc) : loc * Heap :=
  let '(merged, h1) := alloc h ∅ in
  let '(defaults, h2) := alloc h1 ServerClient.paging in
  let h3 := define h2 merged (ownProps h2 defaults) in
  (merged, define h3 merged (ownProps h3 filter)).

(** The three methods that return a page of a list. *)
Inductive ListMethod : Type := Bounces | OutboundMessages | InboundMessages.

Definition listMethod (m : ListMethod)
  : option loc → option Callback → Prog Promise :=
  match m with
  | Bounces => ServerClient.getBounces
  | OutboundMessages => ServerClient.getOutboundMessages
  | InboundMessages => ServerClient.getInboundMessages
  end.

Definition listPath (m : ListMethod) : string :=
  match m with
  | Bounces => "/bounces"
  | OutboundMessages => "/messages/outbound"
  | InboundMessages => "/messages/inbound"
  end.

(** A dispatcher that answers every call with the same promise and touches
    nothing; it serves to run the methods on concrete inputs. *)
Definition answering (p : Promise) : Dispatcher unit :=
  λ _ h e, (Normal p, h, e).

(** What the dispatcher makes of call [c] in world [w]. *)
Definition dispatched {Ext} (d : Dispatcher Ext) (c : DispatchCall)
    (w : World Ext) : Completion Promise * World Ext :=
  let '(r, h, e) := d c (heap w) (ext w) in
  (r, mkWorld h e (trace w ++ [(c, heap w)])).

(** The heap steps of a program up to its first call of the dispatcher:
    the call, the heap it is made in, and what remains to be run. *)
Fixpoint toCall {R : Type} (p : Prog R) (h : Heap)
  : option (DispatchCall * Heap * (Promise → Prog R)) :=
  match p with
  | Ret _ | Throw _ => None
  | NewObject o k => let '(l, h') := alloc h o in toCall (k l) h'
  | OwnProps l k => toCall (k (ownProps h l)) h
  | DefineProps l o k => toCall k (define h l o)
  | Call c k => Some (c, h, k)
  end.

(** The external-interface table of the spec: verb and path of every
    operation, [{id}] standing for the identifier as a template literal
    renders it. *)
Definition interfaceTable {nr : NumberRendering} (i : Invocation)
  : HttpMethod * string :=
  match i with
  | SendEmail _ _ => (POST, "/email")
  | SendEmailBatch _ _ => (POST, "/email/batch")
  | GetDeliveryStatistics _ => (GET, "/deliverystats")
  | GetBounces _ _ => (GET, "/bounces")
  | GetBounce id _ => (GET, "/bounces/" +:+ toString id)
  | GetBounceDump id _ => (GET, "/bounces/" +:+ toString id +:+ "/dump")
  | ActivateBounce id _ =>
      (PUT, "/bounces/" +:+ toString id +:+ "/activate")
  | GetBounceTags _ => (GET, "/bounces/tags")
  | GetServer _ => (GET, "/server")
  | EditServer _ _ => (PUT, "/server")
  | GetOutboundMessages _ _ => (GET, "/messages/outbound")
  | GetOutboundMessageDetails id _ =>
      (GET, "/messages/outbound/" +:+ toString id)
  | GetOutboundMessageDump id _ =>
      (GET, "/messages/outbound/" +:+ toString id +:+ "/dump")
  | GetInboundMessages _ _ => (GET, "/messages/inbound")
  | GetInboundMessageDetails id _ =>
      (GET, "/messages/inbound/" +:+ toString id +:+ "/details")
  | BypassBlockedInboundMessage id _ =>
      (PUT, "/messages/inbound/" +:+ toString id +:+ "/bypass")
  | RetryInboundHookForMessage id _ =>
      (PUT, "/messages/inbound/" +:+ toString id +:+ "/retry")
  end.

(** The notes of the table that name a body. *)
Definition interfaceBody (i : Invocation) : option value :=
  match i with
  | SendEmail message _ => Some message
  | SendEmailBatch messages _ => Some messages
  | EditServer options _ => Some options
  | _ => None
  end.

(** The paths of the calls a run adds. *)
Definition sentPaths {Ext R} (d : Dispatcher Ext) (p : Prog R) (w : World Ext)
  : list string :=
  map (λ e, call_path e.1) (issued d p w).

(** URL-escaping, as the ECMAScript function [encodeURIComponent] does it
    on the bytes of a string: letters, digits and [- _ . ! ~ * ' ( )] stay,
    every other byte becomes [%XX].  The class never calls it; it is the
    reference against which "url-escaped" is read. *)
Definition unreserved (a : ascii) : bool :=
  let n := N_of_ascii a in
  ((48 <=? n) && (n <=? 57) || (65 <=? n) && (n <=? 90)
   || (97 <=? n) && (n <=? 122)
   || bool_decide (a ∈ String.list_ascii_of_string "-_.!~*'()"))%N.

Definition hexDigit (n : N) : ascii :=
  (if n <? 10 then ascii_of_N (48 + n) else ascii_of_N (55 + n))%N.

Fixpoint encodeURIComponent (s : string) : string :=
  match s with
  | EmptyString => EmptyString
  | String a s' =>
      if unreserved a then String a (encodeURIComponent s')
      else
        let n := N_of_ascii a in
        String "%"%char (String (hexDigit (n / 16)) (String (hexDigit (n mod 16))
          (encodeURIComponent s')))
  end.

(** A dispatcher that leaves alone every object other than the one it is
    handed. *)
Definition keepsOtherObjects {Ext} (d : Dispatcher Ext) : Prop :=
  ∀ c h x l,
    is_Some (h !! l) → call_payload c ≠ VRef l → (d c h x).1.2 !! l = h !! l.

(** A sequence of invocations on one client, one after the other. *)
Definition runAll {nr : NumberRendering} {Ext} (d : Dispatcher Ext)
    (invs : list Invocation)
    (w : World Ext) : World Ext :=
  foldl (λ w i, after d (invoke i) w) w invs.

(** The requests a run puts on the wire, on the inherited dispatcher. *)
Definition sentRequests {R} (remote : HttpRequest → HttpReply)
    (this : BaseClient.t) (p : Prog R) (w : World Net) : list HttpRequest :=
  drop (length (sent (ext w)))
    (sent (ext (after (BaseClient.processRequest remote this) p w))).


(** The methods whose call carries the literal [{}]: those that take
    neither a payload nor a filter. *)
Definition sendsEmptyObject (i : Invocation) : bool :=
  match i with
  | GetDeliveryStatistics _ | GetBounce _ _ | GetBounceDump _ _
  | ActivateBounce _ _ | GetBounceTags _ | GetServer _
  | GetOutboundMessageDetails _ _ | GetOutboundMessageDump _ _
  | GetInboundMessageDetails _ _ | BypassBlockedInboundMessage _ _
  | RetryInboundHookForMessage _ _ => true
  | _ => false
  end.

(** A dispatcher that keeps every object of the heap it is called in as it
    is; it may allocate. *)
Definition keepsObjects {Ext} (d : Dispatcher Ext) : Prop :=
  ∀ c h x, h ⊆ (d c h x).1.2.

(** Verb, path and callback of a recorded call. *)
Definition callLine (e : DispatchCall * Heap)
  : HttpMethod * string * option Callback :=
  (call_method e.1, call_path e.1, call_callback e.1).

(** The characters of the rendering of an integral number. *)
Definition isDigitOrMinus (a : ascii) : bool :=
  let n := N_of_ascii a in ((48 <=? n) && (n <=? 57) || (n =? 45))%N.

Fixpoint allChars (P : ascii → bool) (s : string) : bool :=
  match s with
  | EmptyString => true
  | String a s' => P a && allChars P s'
  end.

(** Verb and path of a recorded call. *)
Definition requestLine (e : DispatchCall * Heap) : HttpMethod * string :=
  (call_method e.1, call_path e.1).

(** Two invocations of one and the same method. *)
Definition sameMethod (i1 i2 : Invocation) : bool :=
  match i1, i2 with
  | SendEmail _ _, SendEmail _ _
  | SendEmailBatch _ _, SendEmailBatch _ _
  | GetDeliveryStatistics _, GetDeliveryStatistics _
  | GetBounces _ _, GetBounces _ _
  | GetBounce _ _, GetBounce _ _
  | GetBounceDump _ _, GetBounceDump _ _
  | ActivateBounce _ _, ActivateBounce _ _
  | GetBounceTags _, GetBounceTags _
  | GetServer _, GetServer _
  | EditServer _ _, EditServer _ _
  | GetOutboundMessages _ _, GetOutboundMessages _ _
  | GetOutboundMessageDetails _ _, GetOutboundMessageDetails _ _
  | GetOutboundMessageDump _ _, GetOutboundMessageDump _ _
  | GetInboundMessages _ _, GetInboundMessages _ _
  | GetInboundMessageDetails _ _, GetInboundMessageDetails _ _
  | BypassBlockedInboundMessage _ _, BypassBlockedInboundMessage _ _
  | RetryInboundHookForMessage _ _, RetryInboundHookForMessage _ _ => true
  | _, _ => false
  end.

(** A detail lookup of an outbound message whose identifier is that of a
    dump lookup followed by [/dump]. *)
Definition detailsOfDump (i1 i2 : Invocation) : Prop :=
  ∃ m cb1 cb2,
    i1 = GetOutboundMessageDetails (m +:+ "/dump") cb1 ∧
    i2 = GetOutboundMessageDump m cb2.

Fixpoint lastChar (s : string) : option ascii :=
  match s with
  | EmptyString => None
  | String a s' =>
      match lastChar s' with
      | None => Some a
      | Some b => Some b
      end
  end.

(** An invocation whose number identifier, if it is a [getBounce], is a
    safe integer. *)
Definition safeBounceId (i : Invocation) : bool :=
  match i with
  | GetBounce id _ => isSafeInteger id
  | _ => true
  end.

(** ** Objects with accessor properties *)

(** The heaps above hold objects whose properties are all data properties.
    A caller may as well pass an object with accessor properties, and a
    spread element performs [Get] on each own enumerable property of its
    source, which runs the getter of an accessor.  An object is here its
    data properties together with its accessor properties, the latter in
    the order in which they are enumerated; a getter is identified with the
    way it completes: it returns a value or it raises. *)
Record AObject : Type := mkAObject {
  ao_data : gmap string value;
  ao_accessors : list (string * Completion value)
}.

Abbreviation AHeap := (gmap positive AObject).

(** An object with data properties only. *)
Definition dataObject (o : obj) : AObject := mkAObject o [].

(** The object at [l]; a location that holds no object has no property. *)
Definition objectAt (h : AHeap) (l : loc) : AObject :=
  default (dataObject ∅) (h !! l).

(** [Get] on each accessor in turn; the first getter that raises ends the
    reading. *)
Fixpoint getAll (gs : list (string * Completion value)) (acc : obj)
  : Completion (gmap string value) :=
  match gs with
  | [] => Normal acc
  | (k, Normal v) :: gs' => getAll gs' (<[k := v]> acc)
  | (_, Abrupt e) :: _ => Abrupt e
  end.

(** Reading the own enumerable properties of an object, as a spread
    element does. *)
Definition readProps (a : AObject) : Completion (gmap string value) :=
  getAll (ao_accessors a) (ao_data a).

(** Defining the data properties [o] on an object; a property so defined
    is a data property from then on. *)
Definition defineData (a : AObject) (o : obj) : AObject :=
  mkAObject (spread (ao_data a) o)
    (filter (λ kg, kg.1 ∉ dom o) (ao_accessors a)).

Record AWorld (Ext : Type) : Type := mkAWorld {
  aheap : AHeap;
  aext : Ext;
  atrace : list (DispatchCall * AHeap)
}.
Arguments mkAWorld {Ext} aheap aext atrace.
Arguments aheap {Ext} _.
Arguments aext {Ext} _.
Arguments atrace {Ext} _.

Definition ADispatcher (Ext : Type) : Type :=
  DispatchCall → AHeap → Ext → Completion Promise * AHeap * Ext.

(** A run of a program on a heap of such objects.  It differs from [run]
    in the reading of properties, which raises when a getter does.  When
    the reading raises, the object under construction is out of reach of
    everyone; the properties it has received by then are not recorded. *)
Fixpoint runA {Ext R : Type} (d : ADispatcher Ext) (p : Prog R)
    (w : AWorld Ext) : Completion R * AWorld Ext :=
  match p with
  | Ret r => (Normal r, w)
  | Throw e => (Abrupt e, w)
  | NewObject o k =>
      let l := fresh (dom (aheap w)) in
      runA d (k l)
        (mkAWorld (<[l := dataObject o]> (aheap w)) (aext w) (atrace w))
  | OwnProps l k =>
      match readProps (objectAt (aheap w) l) with
      | Normal o => runA d (k o) w
      | Abrupt e => (Abrupt e, w)
      end
  | DefineProps l o k =>
      runA d k
        (mkAWorld (<[l := defineData (objectAt (aheap w) l) o]> (aheap w))
           (aext w) (atrace w))
  | Call c k =>
      let '(r, h, e) := d c (aheap w) (aext w) in
      let w' := mkAWorld h e (atrace w ++ [(c, aheap w)]) in
      match r with
      | Normal p => runA d (k p) w'
      | Abrupt thrown => (Abrupt thrown, w')
      end
  end.

Definition outcomeA {Ext R} (d : ADispatcher Ext) (p : Prog R)
    (w : AWorld Ext) : Completion R := (runA d p w).1.

Definition afterA {Ext R} (d : ADispatcher Ext) (p : Prog R)
    (w : AWorld Ext) : AWorld Ext := (runA d p w).2.

Definition issuedA {Ext R} (d : ADispatcher Ext) (p : Prog R)
    (w : AWorld Ext) : list (DispatchCall * AHeap) :=
  drop (length (atrace w)) (atrace (afterA d p w)).

Definition dispatchedA {Ext} (d : ADispatcher Ext) (c : DispatchCall)
    (w : AWorld Ext) : Completion Promise * AWorld Ext :=
  let '(r, h, e) := d c (aheap w) (aext w) in
  (r, mkAWorld h e (atrace w ++ [(c, aheap w)])).

(** A dispatcher that answers every call with the same promise and touches
    nothing. *)
Definition answeringA (p : Promise) : ADispatcher unit :=
  λ _ h e, (Normal p, h, e).

(** How far the heap steps of a program get: to a call of the dispatcher,
    to an error raised before any call, or to the end. *)
Inductive Reach (R : Type) : Type :=
| Reached (c : DispatchCall) (h : AHeap) (k : Promise → Prog R)
| Raised (e : value) (h : AHeap)
| Returned (r : R) (h : AHeap).
Arguments Reached {R} c h k.
Arguments Raised {R} e h.
Arguments Returned {R} r h.

Fixpoint toCallA {R : Type} (p : Prog R) (h : AHeap) : Reach R :=
  match p with
  | Ret r => Returned r h
  | Throw e => Raised e h
  | NewObject o k =>
      let l := fresh (dom h) in toCallA (k l) (<[l := dataObject o]> h)
  | OwnProps l k =>
      match readProps (objectAt h l) with
      | Normal o => toCallA (k o) h
      | Abrupt e => Raised e h
      end
  | DefineProps l o k =>
      toCallA k (<[l := defineData (objectAt h l) o]> h)
  | Call c k => Reached c h k
  end.

(** The filter object an invocation is given, if any. *)
Definition filterOf (i : Invocation) : option loc :=
  match i with
  | GetBounces f _ | GetOutboundMessages f _ | GetInboundMessages f _ => f
  | _ => None
  end.

(** The reading of the filter of an invocation; an invocation without a
    filter has nothing to read. *)
Definition readFilter (i : Invocation) (h : AHeap)
  : Completion (gmap string value) :=
  match filterOf i with
  | Some l => readProps (objectAt h l)
  | None => Normal ∅
  end.

(** A sequence of invocations, one after the other. *)
Definition runAllA {nr : NumberRendering} {Ext} (d : ADispatcher Ext)
    (invs : list Invocation) (w : AWorld Ext) : AWorld Ext :=
  foldl (λ w i, afterA d (invoke i) w) w invs.

(** A heap of data objects, as a heap of objects with accessors. *)
Definition liftHeap (h : Heap) : AHeap := dataObject <$> h.

Definition liftWorld {Ext} (w : World Ext) : AWorld Ext :=
  mkAWorld (liftHeap (heap w)) (ext w)
    (map (λ e, (e.1, liftHeap e.2)) (trace w)).

(** A dispatcher on heaps of data objects, as a dispatcher that sees the
    data properties only. *)
Definition liftDispatcher {Ext} (d : Dispatcher Ext) : ADispatcher Ext :=
  λ c h e,
    let '(r, h', e') := d c (ao_data <$> h) e in (r, liftHeap h', e').

(** The heap in which [{...{count: 100, offset: 0}, ...filter}] is about to
    read its filter, and the location of the object under construction. *)
Definition pagingStart (h : AHeap) : loc * AHeap :=
  let merged := fresh (dom h) in
  let h1 := <[merged := dataObject ∅]> h in
  let defaults := fresh (dom h1) in
  let h2 := <[defaults := dataObject ServerClient.paging]> h1 in
  (merged,
   <[merged := defineData (objectAt h2 merged) ServerClient.paging]> h2).

(** The invocations of a sequence that get to their call: those whose
    filter is read without a getter raising, in the heap they run in. *)
Fixpoint reachingCalls {nr : NumberRendering} {Ext} (d : ADispatcher Ext)
    (invs : list Invocation) (w : AWorld Ext) : list Invocation :=
  match invs with
  | [] => []
  | i :: rest =>
      let made := reachingCalls d rest (afterA d (invoke i) w) in
      match readFilter i (aheap w) with
      | Normal _ => i :: made
      | Abrupt _ => made
      end
  end.

(** Verb, path and callback of a call. *)
Definition lineOf (c : DispatchCall)
  : HttpMethod * string * option Callback :=
  (call_method c, call_path c, call_callback c).

(** * Properties *)

(** ** The interpreter *)

Section Facade.
Context {Ext : Type}.
Variable d : Dispatcher Ext.

Lemma run_bind {A B} (p : Prog A) (f : A → Prog B) (w : World Ext) :
  run d (p ≫= f) w =
    match run d p w with
    | (Normal a, w') => run d (f a) w'
    | (Abrupt e, w') => (Abrupt e, w')
    end.
Proof.
  revert w. induction p as [r|e|o k IH|l k IH|l o k IH|c k IH]; intros w.
  - reflexivity.
  - reflexivity.
  - cbn. apply IH.
  - cbn. apply IH.
  - cbn. apply IH.
  - cbn -[app]. destruct (d c (heap w) (ext w)) as [[[p|e] h] x].
    + apply IH.
    + reflexivity.
Qed.

Lemma run_withPaging (filter : loc) (w : World Ext) :
  run d (ServerClient.withPaging filter) w =
    let '(merged, h) := pagingHeap (heap w) filter in
    (Normal merged, mkWorld h (ext w) (trace w)).
Proof. reflexivity. Qed.
End Facade.

(** ** The heap during a method body *)

Lemma alloc_fresh (h : Heap) (o : obj) : h !! (alloc h o).1 = None.
Proof. apply not_elem_of_dom, is_fresh. Qed.

Lemma ownProps_insert_eq (h : Heap) (l : loc) (o : obj) :
  ownProps (<[l := o]> h) l = o.
Proof. unfold ownProps. by rewrite lookup_insert_eq. Qed.

Lemma ownProps_insert_ne (h : Heap) (l l' : loc) (o : obj) :
  l ≠ l' → ownProps (<[l := o]> h) l' = ownProps h l'.
Proof. intros Hne. unfold ownProps. by rewrite lookup_insert_ne. Qed.

Lemma ownProps_Some (h : Heap) (l : loc) (o : obj) :
  h !! l = Some o → ownProps h l = o.
Proof. intros Hl. unfold ownProps. by rewrite Hl. Qed.

Lemma pagingHeap_spec (h : Heap) (filter : loc) (o : obj) :
  h !! filter = Some o →
  h !! (pagingHeap h filter).1 = None ∧
  (pagingHeap h filter).2 !! (pagingHeap h filter).1
    = Some (spread (spread ∅ ServerClient.paging) o) ∧
  (∀ l, is_Some (h !! l) → (pagingHeap h filter).2 !! l = h !! l).
Proof.
  intros Hf. unfold pagingHeap, alloc, define.
  set (m := fresh (dom h)).
  set (h1 := <[m := ∅]> h).
  set (dl := fresh (dom h1)).
  assert (Hm : h !! m = None) by apply not_elem_of_dom, is_fresh.
  assert (Hdl : h1 !! dl = None) by apply not_elem_of_dom, is_fresh.
  assert (Hne : m ≠ dl).
  { intros E. rewrite <- E in Hdl. unfold h1 in Hdl.
    by rewrite lookup_insert_eq in Hdl. }
  assert (Hfm : m ≠ filter) by congruence.
  assert (Hfd : dl ≠ filter).
  { intros E. rewrite E in Hdl. unfold h1 in Hdl.
    rewrite lookup_insert_ne in Hdl; congruence. }
  cbn [fst snd].
  assert (P1 : ownProps (<[dl := ServerClient.paging]> h1) dl
               = ServerClient.paging) by apply ownProps_insert_eq.
  assert (P2 : ownProps (<[dl := ServerClient.paging]> h1) m = ∅).
  { rewrite ownProps_insert_ne by done. apply ownProps_insert_eq. }
  assert (P3 : ∀ x, ownProps (<[m := x]> (<[dl := ServerClient.paging]> h1))
                      filter = o).
  { intros x. rewrite !ownProps_insert_ne by done. unfold h1.
    rewrite ownProps_insert_ne by done. by apply ownProps_Some. }
  assert (P4 : ∀ x g, ownProps (<[m := x]> g) m = x)
    by (intros; apply ownProps_insert_eq).
  rewrite P1, P2, P4, P3.
  split; [done|]. split; [by rewrite lookup_insert_eq|].
  intros l [x Hl].
  assert (Hml : m ≠ l) by congruence.
  assert (Hdll : dl ≠ l).
  { intros E. rewrite E in Hdl. unfold h1 in Hdl.
    rewrite lookup_insert_ne in Hdl; congruence. }
  rewrite !lookup_insert_ne by done. unfold h1. by rewrite lookup_insert_ne.
Qed.

(** The merge of the defaults with a filter, key by key. *)
Lemma spread_paging_lookup (o : obj) (k : string) :
  spread (spread ∅ ServerClient.paging) o !! k =
    match o !! k with
    | Some v => Some v
    | None => ServerClient.paging !! k
    end.
Proof.
  unfold spread. rewrite lookup_union, (right_id_L ∅ (∪)).
  destruct (o !! k) as [v|]; [|by rewrite (left_id_L None _)].
  by destruct (ServerClient.paging !! k).
Qed.

Section FacadeRuns.
Context {Ext : Type}.
Variable d : Dispatcher Ext.

Lemma run_call (c : DispatchCall) (w : World Ext) :
  run d (Call c Ret) w = dispatched d c w.
Proof.
  unfold dispatched. cbn -[app].
  by destruct (d c (heap w) (ext w)) as [[[p|e] h] x].
Qed.

Lemma trace_dispatched (c : DispatchCall) (w : World Ext) :
  trace (dispatched d c w).2 = trace w ++ [(c, heap w)].
Proof.
  unfold dispatched. by destruct (d c (heap w) (ext w)) as [[r h] x].
Qed.

Lemma run_listMethod_Some (m : ListMethod) (l : loc) cb (w : World Ext) :
  run d (listMethod m (Some l) cb) w =
    dispatched d
      (ProcessRequestWithoutBody GET (listPath m)
         (VRef (pagingHeap (heap w) l).1) cb)
      (mkWorld (pagingHeap (heap w) l).2 (ext w) (trace w)).
Proof. rewrite <- run_call. by destruct m. Qed.

Lemma run_listMethod_None (m : ListMethod) cb (w : World Ext) :
  run d (listMethod m None cb) w =
    let '(l, h) := alloc (heap w) ∅ in
    run d (listMethod m (Some l) cb) (mkWorld h (ext w) (trace w)).
Proof. by destruct m. Qed.

Lemma issued_listMethod (m : ListMethod) (l : loc) cb (w : World Ext) :
  issued d (listMethod m (Some l) cb) w =
    [(ProcessRequestWithoutBody GET (listPath m)
        (VRef (pagingHeap (heap w) l).1) cb,
      (pagingHeap (heap w) l).2)].
Proof.
  unfold issued, after. rewrite run_listMethod_Some, trace_dispatched.
  cbn [trace heap]. by rewrite drop_app_length.
Qed.
End FacadeRuns.

(** ** Query parameters of the list methods *)

(** C1: every list-returning method ([getBounces], [getOutboundMessages],
    [getInboundMessages]), called with a filter object, hands the
    dispatcher one GET call on its path whose query parameters are the
    merge of the defaults [{count: 100, offset: 0}] with the filter, a
    value of the filter winning on a shared key; with [{count: 10}] they
    are [{count: 10, offset: 0}], and without a filter they are exactly
    [{count: 100, offset: 0}]. *)
Theorem list_methods_merge_defaults_with_filter
    {Ext : Type} (d : Dispatcher Ext) (m : ListMethod)
    (cb : option Callback) (w : World Ext) (l : loc) (o : obj)
    (Hl : heap w !! l = Some o) :
  (∃ q h,
      issued d (listMethod m (Some l) cb) w
        = [(ProcessRequestWithoutBody GET (listPath m) (VRef q) cb, h)] ∧
      h !! q = Some (spread (spread ∅ ServerClient.paging) o) ∧
      (∀ k, ownProps h q !! k =
              match o !! k with
              | Some v => Some v
              | None =>
                  ({[ "count" := VNum 100; "offset" := VNum 0 ]} : obj) !! k
              end) ∧
      (o = {[ "count" := VNum 10 ]} →
       ownProps h q = {[ "count" := VNum 10; "offset" := VNum 0 ]})) ∧
  (∃ q h,
      issued d (listMethod m None cb) w
        = [(ProcessRequestWithoutBody GET (listPath m) (VRef q) cb, h)] ∧
      ownProps h q = {[ "count" := VNum 100; "offset" := VNum 0 ]}).
Proof.
  split.
  - destruct (pagingHeap_spec _ _ _ Hl) as (_ & Hq & _).
    eexists _, _. split; [apply issued_listMethod|].
    split; [exact Hq|]. rewrite (ownProps_Some _ _ _ Hq).
    split; [intros k; apply spread_paging_lookup|].
    intros ->. reflexivity.
  - unfold issued, after. rewrite run_listMethod_None.
    unfold alloc. set (f := fresh (dom (heap w))).
    set (w1 := mkWorld (<[f := ∅]> (heap w)) (ext w) (trace w)).
    change (length (trace w)) with (length (trace w1)).
    fold (after d (listMethod m (Some f) cb) w1).
    fold (issued d (listMethod m (Some f) cb) w1).
    assert (Hf : heap w1 !! f = Some ∅) by apply lookup_insert_eq.
    destruct (pagingHeap_spec _ _ _ Hf) as (_ & Hq & _).
    eexists _, _. split; [apply issued_listMethod|].
    rewrite (ownProps_Some _ _ _ Hq). reflexivity.
Qed.

Lemma list_methods_merge_defaults_with_filter_witness :
  let w := mkWorld {[ 1%positive := {[ "count" := VNum 10 ]} ]} () [] in
  heap w !! 1%positive = Some {[ "count" := VNum 10 ]} ∧
  (∃ q h,
      issued (answering (Fulfilled VNull))
        (ServerClient.getBounces (Some 1%positive) None) w
        = [(ProcessRequestWithoutBody GET "/bounces" (VRef q) None, h)] ∧
      ownProps h q = {[ "count" := VNum 10; "offset" := VNum 0 ]}).
Proof.
  intros w. split; [reflexivity|].
  destruct (list_methods_merge_defaults_with_filter
              (answering (Fulfilled VNull)) Bounces None w 1%positive
              {[ "count" := VNum 10 ]} eq_refl)
    as [(q & h & Hi & _ & _ & H10) _].
  exists q, h. split; [exact Hi|]. by apply H10.
Defined.

(** The example of the specification:
    [getBounces({count: 5, tag: "welcome"})]. *)
Example getBounces_count_5_tag_welcome :
  map (λ e, (call_method e.1, call_path e.1, sentProps e))
    (issued (answering (Fulfilled VNull))
       (ServerClient.getBounces (Some 1%positive) None)
       (mkWorld
          {[ 1%positive := {[ "count" := VNum 5; "tag" := VStr "welcome" ]} ]}
          () []))
  = [(GET, "/bounces",
      {[ "count" := VNum 5; "offset" := VNum 0; "tag" := VStr "welcome" ]})].
Proof. reflexivity. Qed.

(** [sendEmail] with a message object: the reference itself is the body. *)
Example sendEmail_message :
  issued (answering (Fulfilled VNull))
    (ServerClient.sendEmail (VRef 1%positive) None)
    (mkWorld {[ 1%positive := {[ "Subject" := VStr "hi" ]} ]} () [])
  = [(ProcessRequestWithBody POST "/email" (VRef 1%positive) None,
      {[ 1%positive := {[ "Subject" := VStr "hi" ]} ]})].
Proof. reflexivity. Qed.

(** ** Every method makes one call *)

Section SingleCall.
Context {nr : NumberRendering} {Ext : Type}.
Variable d : Dispatcher Ext.

Lemma run_toCall {R} (p : Prog R) (w : World Ext) c h k :
  toCall p (heap w) = Some (c, h, k) →
  run d p w = run d (Call c k) (mkWorld h (ext w) (trace w)).
Proof.
  revert w h. induction p as [r|e|o k' IH|l k' IH|l o k' IH|c' k' IH];
    intros w h Hc; cbn in Hc.
  - done.
  - done.
  - cbn -[app]. rewrite (IH _ _ h); [done|]. exact Hc.
  - cbn -[app]. by apply IH.
  - cbn -[app]. rewrite (IH _ h); [done|]. exact Hc.
  - injection Hc as Hc1 Hc2 Hc3. subst. by destruct w.
Qed.

Lemma invoke_toCall (i : Invocation) (h : Heap) :
  ∃ c h', toCall (invoke i) h = Some (c, h', Ret) ∧
          call_method c = (interfaceTable i).1 ∧
          call_path c = (interfaceTable i).2 ∧
          call_callback c = invocation_callback i ∧
          match interfaceBody i with
          | Some b =>
              c = ProcessRequestWithBody (interfaceTable i).1
                    (interfaceTable i).2 b (invocation_callback i) ∧
              h' = h
          | None => True
          end.
Proof.
  destruct i as [? ?|? ?|?|[?|] ?|? ?|? ?|? ?|?|?|? ?|[?|] ?|? ?|? ?|[?|] ?
                |? ?|? ?|? ?];
    eexists _, _; (split; [reflexivity|]); done.
Qed.

Lemma run_invoke (i : Invocation) (w : World Ext) :
  ∃ c h, toCall (invoke i) (heap w) = Some (c, h, Ret) ∧
         run d (invoke i) w
           = dispatched d c (mkWorld h (ext w) (trace w)).
Proof.
  destruct (invoke_toCall i (heap w)) as (c & h & Hc & _).
  exists c, h. split; [exact Hc|].
  rewrite (run_toCall _ _ _ _ _ Hc). apply run_call.
Qed.

Lemma issued_invoke (i : Invocation) (w : World Ext) c h :
  toCall (invoke i) (heap w) = Some (c, h, Ret) →
  issued d (invoke i) w = [(c, h)].
Proof.
  intros Hc. unfold issued, after.
  rewrite (run_toCall _ _ _ _ _ Hc), run_call, trace_dispatched.
  cbn [trace heap]. by rewrite drop_app_length.
Qed.
End SingleCall.

(** ** Verbs, paths and bodies *)

(** C2: every method of the facade hands the dispatcher one call that
    carries the verb and the path of its row of the external-interface
    table; where the row names a body ([sendEmail], [sendEmailBatch],
    [editServer]) the call goes through the with-body method and carries the
    caller's value as body. *)
Theorem every_method_sends_its_table_row
    {nr : NumberRendering}
    {Ext : Type} (d : Dispatcher Ext) (i : Invocation) (w : World Ext) :
  ∃ c h,
    issued d (invoke i) w = [(c, h)] ∧
    call_method c = (interfaceTable i).1 ∧
    call_path c = (interfaceTable i).2 ∧
    match interfaceBody i with
    | Some b =>
        c = ProcessRequestWithBody (interfaceTable i).1 (interfaceTable i).2
              b (invocation_callback i)
    | None => True
    end.
Proof.
  destruct (invoke_toCall i (heap w)) as (c & h & Hc & Hm & Hp & _ & Hb).
  exists c, h. split; [by apply issued_invoke|]. split; [done|].
  split; [done|]. destruct (interfaceBody i); [apply Hb|done].
Qed.

(** C8: a method that carries a payload ([sendEmail], [sendEmailBatch],
    [editServer]) forwards it as it is: whatever the value, the invocation
    is the dispatcher's answer to the with-body call whose body is that
    value, made in the caller's heap, so that nothing is inspected, rejected
    or changed on the way. *)
Theorem payload_is_forwarded_unchanged
    {Ext : Type} (d : Dispatcher Ext) (payload : value)
    (cb : option Callback) (w : World Ext) :
  (run d (ServerClient.sendEmail payload cb) w
     = dispatched d (ProcessRequestWithBody POST "/email" payload cb) w ∧
   issued d (ServerClient.sendEmail payload cb) w
     = [(ProcessRequestWithBody POST "/email" payload cb, heap w)]) ∧
  (run d (ServerClient.sendEmailBatch payload cb) w
     = dispatched d (ProcessRequestWithBody POST "/email/batch" payload cb) w ∧
   issued d (ServerClient.sendEmailBatch payload cb) w
     = [(ProcessRequestWithBody POST "/email/batch" payload cb, heap w)]) ∧
  (run d (ServerClient.editServer payload cb) w
     = dispatched d (ProcessRequestWithBody PUT "/server" payload cb) w ∧
   issued d (ServerClient.editServer payload cb) w
     = [(ProcessRequestWithBody PUT "/server" payload cb, heap w)]).
Proof.
  unfold ServerClient.sendEmail, ServerClient.sendEmailBatch,
    ServerClient.editServer, processRequestWithBody.
  repeat split; try apply run_call;
    unfold issued, after;
    (rewrite (run_call d), trace_dispatched; by rewrite drop_app_length).
Qed.

(** ** Identifiers in paths *)

Example encodeURIComponent_plain :
  encodeURIComponent "b2c9-4f~x_(1).A" = "b2c9-4f~x_(1).A".
Proof. reflexivity. Qed.

Example encodeURIComponent_reserved :
  encodeURIComponent "a/b c?d" = "a%2Fb%20c%3Fd".
Proof. reflexivity. Qed.

Lemma sentPaths_invoke {nr : NumberRendering} {Ext}
    (d : Dispatcher Ext) i (w : World Ext) c h :
  toCall (invoke i) (heap w) = Some (c, h, Ret) →
  sentPaths d (invoke i) w = [call_path c].
Proof. intros Hc. unfold sentPaths. by rewrite (issued_invoke d i w c h Hc). Qed.

(** C3, as the code has it: every id-templated method puts the identifier
    into the path verbatim, as the template literal renders it, between the
    fixed parts of the path; nothing is escaped, encoded or checked.
    [getBounce(12345)] issues GET [/bounces/12345]. *)
Theorem identifier_is_embedded_verbatim
    {nr : NumberRendering}
    {Ext : Type} (d : Dispatcher Ext) (w : World Ext) (cb : option Callback)
    (id : Z) (messageId : string) :
  sentPaths d (ServerClient.getBounce id cb) w
    = ["/bounces/" +:+ toString id] ∧
  sentPaths d (ServerClient.getBounceDump id cb) w
    = ["/bounces/" +:+ toString id +:+ "/dump"] ∧
  sentPaths d (ServerClient.activateBounce id cb) w
    = ["/bounces/" +:+ toString id +:+ "/activate"] ∧
  sentPaths d (ServerClient.getOutboundMessageDetails messageId cb) w
    = ["/messages/outbound/" +:+ messageId] ∧
  sentPaths d (ServerClient.getOutboundMessageDump messageId cb) w
    = ["/messages/outbound/" +:+ messageId +:+ "/dump"] ∧
  sentPaths d (ServerClient.getInboundMessageDetails messageId cb) w
    = ["/messages/inbound/" +:+ messageId +:+ "/details"] ∧
  sentPaths d (ServerClient.bypassBlockedInboundMessage messageId cb) w
    = ["/messages/inbound/" +:+ messageId +:+ "/bypass"] ∧
  sentPaths d (ServerClient.retryInboundHookForMessage messageId cb) w
    = ["/messages/inbound/" +:+ messageId +:+ "/retry"] ∧
  map (λ e, (call_method e.1, call_path e.1))
      (issued d (ServerClient.getBounce 12345 cb) w)
    = [(GET, "/bounces/12345")].
Proof.
  repeat split.
  - exact (sentPaths_invoke d (GetBounce id cb) w _ _ eq_refl).
  - exact (sentPaths_invoke d (GetBounceDump id cb) w _ _ eq_refl).
  - exact (sentPaths_invoke d (ActivateBounce id cb) w _ _ eq_refl).
  - exact (sentPaths_invoke d (GetOutboundMessageDetails messageId cb) w
             _ _ eq_refl).
  - exact (sentPaths_invoke d (GetOutboundMessageDump messageId cb) w
             _ _ eq_refl).
  - exact (sentPaths_invoke d (GetInboundMessageDetails messageId cb) w
             _ _ eq_refl).
  - exact (sentPaths_invoke d (BypassBlockedInboundMessage messageId cb) w
             _ _ eq_refl).
  - exact (sentPaths_invoke d (RetryInboundHookForMessage messageId cb) w
             _ _ eq_refl).
  - pose proof (issued_invoke d (GetBounce 12345 cb) w _ _ eq_refl) as Hi.
    cbn [invoke] in Hi. by rewrite Hi.
Qed.

(** C3, as stated, fails: the identifier [a b] of an outbound message
    reaches the path as it is, whereas its url-escaped form is [a%20b]. *)
Lemma identifier_is_not_url_escaped :
  sentPaths (answering (Fulfilled VNull))
    (ServerClient.getOutboundMessageDetails "a b" None) (mkWorld ∅ () [])
    = ["/messages/outbound/a b"] ∧
  encodeURIComponent "a b" = "a%20b" ∧
  sentPaths (answering (Fulfilled VNull))
    (ServerClient.getOutboundMessageDetails "a b" None) (mkWorld ∅ () [])
    ≠ ["/messages/outbound/" +:+ encodeURIComponent "a b"].
Proof. split; [reflexivity|]. split; [reflexivity|]. discriminate. Qed.

Lemma encodeURIComponent_unreserved (s : string) :
  forallb unreserved (String.list_ascii_of_string s) = true →
  encodeURIComponent s = s.
Proof.
  induction s as [|a s IH]; [done|]. cbn [String.list_ascii_of_string forallb].
  intros [Ha Hs]%andb_prop. cbn [encodeURIComponent]. rewrite Ha.
  by rewrite IH.
Qed.

(** ** The caller's filter object *)

Lemma answering_keepsOtherObjects (p : Promise) :
  keepsOtherObjects (answering p).
Proof. by intros c h x l _ _. Qed.

(** C9: a list-returning method does not change the caller's filter
    object.  The merge with the defaults is built in a new object, which is
    the one handed to the dispatcher; when the call is made the caller's
    object has the properties it had, and it still has them after the
    invocation, whatever a dispatcher does that leaves alone the objects it
    was not handed. *)
Theorem filter_object_is_not_mutated
    {Ext : Type} (d : Dispatcher Ext) (m : ListMethod)
    (cb : option Callback) (w : World Ext) (l : loc) (o : obj)
    (Hl : heap w !! l = Some o)
    (Hd : keepsOtherObjects d) :
  (∃ q h,
      issued d (listMethod m (Some l) cb) w
        = [(ProcessRequestWithoutBody GET (listPath m) (VRef q) cb, h)] ∧
      heap w !! q = None ∧ q ≠ l ∧ h !! l = Some o) ∧
  heap (after d (listMethod m (Some l) cb) w) !! l = Some o.
Proof.
  destruct (pagingHeap_spec _ _ _ Hl) as (Hq & _ & Hframe).
  assert (Hne : (pagingHeap (heap w) l).1 ≠ l) by congruence.
  assert (Hh : (pagingHeap (heap w) l).2 !! l = Some o).
  { rewrite Hframe; [done|]. by rewrite Hl. }
  split.
  - eexists _, _. split; [apply issued_listMethod|]. done.
  - unfold after. rewrite run_listMethod_Some. unfold dispatched.
    cbn [heap ext trace].
    pose proof (Hd (ProcessRequestWithoutBody GET (listPath m)
                      (VRef (pagingHeap (heap w) l).1) cb)
                   (pagingHeap (heap w) l).2 (ext w) l) as Hk.
    destruct (d _ (pagingHeap (heap w) l).2 (ext w)) as [[r h'] x].
    cbn [fst snd heap] in *. rewrite Hk; [done| by rewrite Hh |].
    cbn [call_payload]. intros [= E]. by apply Hne.
Qed.

Lemma filter_object_is_not_mutated_witness :
  let w := mkWorld {[ 7%positive := {[ "tag" := VStr "welcome" ]} ]} () [] in
  heap w !! 7%positive = Some {[ "tag" := VStr "welcome" ]} ∧
  keepsOtherObjects (answering (Fulfilled VNull)) ∧
  heap (after (answering (Fulfilled VNull))
          (ServerClient.getInboundMessages (Some 7%positive) None) w)
    !! 7%positive = Some {[ "tag" := VStr "welcome" ]}.
Proof.
  intros w. split; [reflexivity|].
  split; [apply answering_keepsOtherObjects|].
  exact (proj2 (filter_object_is_not_mutated
                  (answering (Fulfilled VNull)) InboundMessages None w
                  7%positive {[ "tag" := VStr "welcome" ]} eq_refl
                  (answering_keepsOtherObjects (Fulfilled VNull)))).
Defined.

(** ** The facade on the inherited dispatcher *)

Section OnBaseClient.
Context {nr : NumberRendering}.
Variable remote : HttpRequest → HttpReply.
Variable this : BaseClient.t.

Lemma run_invoke_processRequest (i : Invocation) (w : World Net) c h :
  toCall (invoke i) (heap w) = Some (c, h, Ret) →
  run (BaseClient.processRequest remote this) (invoke i) w =
    let rq := BaseClient.request this c h in
    let ph := BaseClient.settle (remote rq) h in
    (Normal ph.1,
     mkWorld ph.2
       (mkNet (sent (ext w) ++ [rq])
          (callbacks (ext w) ++
             match call_callback c with
             | Some f => [BaseClient.callbackCall f ph.1]
             | None => []
             end))
       (trace w ++ [(c, h)])).
Proof.
  intros Hc. rewrite (run_toCall _ _ _ _ _ _ Hc), run_call.
  unfold dispatched, BaseClient.processRequest. cbn [heap ext trace].
  by destruct (BaseClient.settle _ h) as [p h'].
Qed.

Lemma sentRequests_invoke (i : Invocation) (w : World Net) c h :
  toCall (invoke i) (heap w) = Some (c, h, Ret) →
  sentRequests remote this (invoke i) w = [BaseClient.request this c h].
Proof.
  intros Hc. unfold sentRequests, after.
  rewrite (run_invoke_processRequest i w c h Hc). cbn [snd ext sent].
  by rewrite drop_app_length.
Qed.


Lemma request_headers (c : DispatchCall) (h : Heap) :
  rq_headers (BaseClient.request this c h)
    = [(BaseClient.authHeader this, BaseClient.token this)].
Proof. by destruct c. Qed.

Lemma sent_runAll (invs : list Invocation) (w : World Net) :
  ∃ rqs,
    sent (ext (runAll (BaseClient.processRequest remote this) invs w))
      = sent (ext w) ++ rqs ∧
    length rqs = length invs ∧
    Forall (λ rq, rq_headers rq
                  = [(BaseClient.authHeader this, BaseClient.token this)])
      rqs.
Proof.
  revert w. induction invs as [|i invs IH]; intros w.
  - exists []. by rewrite app_nil_r.
  - cbn [runAll foldl]. fold (runAll (BaseClient.processRequest remote this)
                                invs).
    destruct (invoke_toCall i (heap w)) as (c & h & Hc & _).
    destruct (IH (after (BaseClient.processRequest remote this)
                    (invoke i) w)) as (rqs & Hs & Hlen & Hall).
    exists (BaseClient.request this c h :: rqs).
    split; [|split].
    + unfold runAll in Hs |- *. rewrite Hs. unfold after.
      rewrite (run_invoke_processRequest i w c h Hc). cbn [snd ext sent].
      by rewrite <- app_assoc.
    + cbn. by rewrite Hlen.
    + constructor; [apply request_headers|done].
Qed.
End OnBaseClient.

(** C10: [activateBounce] goes through the with-body method and passes a
    new empty object as the body; [bypassBlockedInboundMessage] and
    [retryInboundHookForMessage] go through the without-body method and pass
    a new empty object as the query parameters.  On the inherited
    dispatcher the empty object is then the body of the request, with no
    query, in the first case, and its query, with no body, in the other
    two. *)
Theorem payloadless_put_methods_differ_in_channel
    {nr : NumberRendering}
    {Ext : Type} (d : Dispatcher Ext) (w : World Ext)
    (remote : HttpRequest → HttpReply) (this : BaseClient.t)
    (wn : World Net) (cb : option Callback) (id : Z) (messageId : string) :
  let q := fresh (dom (heap w)) in
  let auth := [(BaseClient.authHeader this, BaseClient.token this)] in
  (heap w !! q = None ∧
   issued d (ServerClient.activateBounce id cb) w
     = [(ProcessRequestWithBody PUT
           ("/bounces/" +:+ toString id +:+ "/activate") (VRef q) cb,
         <[q := ∅]> (heap w))] ∧
   issued d (ServerClient.bypassBlockedInboundMessage messageId cb) w
     = [(ProcessRequestWithoutBody PUT
           ("/messages/inbound/" +:+ messageId +:+ "/bypass") (VRef q) cb,
         <[q := ∅]> (heap w))] ∧
   issued d (ServerClient.retryInboundHookForMessage messageId cb) w
     = [(ProcessRequestWithoutBody PUT
           ("/messages/inbound/" +:+ messageId +:+ "/retry") (VRef q) cb,
         <[q := ∅]> (heap w))]) ∧
  (sentRequests remote this (ServerClient.activateBounce id cb) wn
     = [mkHttpRequest PUT ("/bounces/" +:+ toString id +:+ "/activate")
          auth None (Some (SObject ∅))] ∧
   sentRequests remote this
       (ServerClient.bypassBlockedInboundMessage messageId cb) wn
     = [mkHttpRequest PUT ("/messages/inbound/" +:+ messageId +:+ "/bypass")
          auth (Some (SObject ∅)) None] ∧
   sentRequests remote this
       (ServerClient.retryInboundHookForMessage messageId cb) wn
     = [mkHttpRequest PUT ("/messages/inbound/" +:+ messageId +:+ "/retry")
          auth (Some (SObject ∅)) None]).
Proof.
  intros q auth. split; [split; [apply (alloc_fresh (heap w) ∅)|]; repeat split|].
  - exact (issued_invoke d (ActivateBounce id cb) w _ _ eq_refl).
  - exact (issued_invoke d (BypassBlockedInboundMessage messageId cb) w
             _ _ eq_refl).
  - exact (issued_invoke d (RetryInboundHookForMessage messageId cb) w
             _ _ eq_refl).
  - assert (Hs : ∀ h : Heap,
               serialize (<[fresh (dom h) := ∅]> h) (VRef (fresh (dom h)))
               = SObject ∅).
    { intros h. cbn [serialize]. by rewrite ownProps_insert_eq. }
    repeat split.
    + etrans; [exact (sentRequests_invoke remote this (ActivateBounce id cb)
                        wn _ _ eq_refl)|].
      cbn [BaseClient.request]. by rewrite Hs.
    + etrans; [exact (sentRequests_invoke remote this
                        (BypassBlockedInboundMessage messageId cb) wn
                        _ _ eq_refl)|].
      cbn [BaseClient.request]. by rewrite Hs.
    + etrans; [exact (sentRequests_invoke remote this
                        (RetryInboundHookForMessage messageId cb) wn
                        _ _ eq_refl)|].
      cbn [BaseClient.request]. by rewrite Hs.
Qed.



(** C7: every request that a client built by the constructor sends, for
    whatever sequence of method invocations, carries the server token given
    to the constructor under the server-token header name, and no other
    value under that name; each invocation sends one such request. *)
Theorem every_request_carries_the_server_token
    {nr : NumberRendering}
    (SERVER_TOKEN serverToken : string) (options : option value)
    (remote : HttpRequest → HttpReply)
    (invs : list Invocation) (w : World Net) :
  let this := ServerClient.constructor SERVER_TOKEN serverToken options in
  ∃ rqs,
    sent (ext (runAll (BaseClient.processRequest remote this) invs w))
      = sent (ext w) ++ rqs ∧
    length rqs = length invs ∧
    Forall (λ rq,
              (SERVER_TOKEN, serverToken) ∈ rq_headers rq ∧
              ∀ v, (SERVER_TOKEN, v) ∈ rq_headers rq → v = serverToken)
      rqs.
Proof.
  intros this.
  destruct (sent_runAll remote this invs w) as (rqs & Hs & Hlen & Hall).
  exists rqs. split; [exact Hs|]. split; [exact Hlen|].
  eapply Forall_impl; [exact Hall|]. cbn beta. intros rq ->.
  split; [apply list_elem_of_singleton; reflexivity|].
  intros v Hv%list_elem_of_singleton. by injection Hv.
Qed.


(** * Further properties of the methods *)

(** ** The heap up to the call *)

Lemma pagingHeap_frame (h : Heap) (filter : loc) :
  h !! (pagingHeap h filter).1 = None ∧
  is_Some ((pagingHeap h filter).2 !! (pagingHeap h filter).1) ∧
  h ⊆ (pagingHeap h filter).2.
Proof.
  unfold pagingHeap, alloc, define.
  set (m := fresh (dom h)).
  set (h1 := <[m := ∅]> h).
  set (dl := fresh (dom h1)).
  assert (Hm : h !! m = None) by apply not_elem_of_dom, is_fresh.
  assert (Hdl : h1 !! dl = None) by apply not_elem_of_dom, is_fresh.
  assert (Hd : h !! dl = None).
  { destruct (decide (m = dl)) as [E|E]; [by rewrite <- E|].
    unfold h1 in Hdl. by rewrite lookup_insert_ne in Hdl. }
  cbn [fst snd]. split; [done|]. split; [by rewrite lookup_insert_eq|].
  do 2 (apply insert_subseteq_r; [done|]).
  apply insert_subseteq_r; [done|]. by apply insert_subseteq.
Qed.

Lemma toCall_invoke_heap {nr : NumberRendering} (i : Invocation) (h : Heap) :
  ∃ c h',
    toCall (invoke i) h = Some (c, h', Ret) ∧
    h ⊆ h' ∧
    (interfaceBody i = None →
     ∃ q, call_payload c = VRef q ∧ h !! q = None ∧ is_Some (h' !! q)) ∧
    (sendsEmptyObject i = true →
     ∃ q, call_payload c = VRef q ∧ h !! q = None ∧ h' = <[q := ∅]> h).
Proof.
  assert (Hq : h !! fresh (dom h) = None) by apply not_elem_of_dom, is_fresh.
  assert (Hsub : h ⊆ <[fresh (dom h) := ∅]> h) by by apply insert_subseteq.
  destruct i as [? ?|? ?|?|[l|] ?|? ?|? ?|? ?|?|?|? ?|[l|] ?|? ?|? ?|[l|] ?
                |? ?|? ?|? ?].
  all: try (eexists _, _; split; [reflexivity|]; split; [exact Hsub|];
            split; intros _;
            (eexists; split; [reflexivity|]; split; [exact Hq|]);
            [by rewrite lookup_insert_eq|done]).
  all: try (eexists _, _; split; [reflexivity|]; split; [done|];
            split; intros [=]).
  all: try (destruct (pagingHeap_frame h l) as (Hn & Ha & Hs);
            eexists _, _; split; [reflexivity|]; split; [exact Hs|];
            split; [intros _|intros [=]];
            eexists; split; [reflexivity|]; by split).
  all: destruct (pagingHeap_frame (<[fresh (dom h) := ∅]> h) (fresh (dom h)))
         as (Hn & Ha & Hs);
       eexists _, _; (split; [reflexivity|]); split; [by etrans|];
       (split; [intros _|intros [=]]);
       eexists; (split; [reflexivity|]); split; [|exact Ha];
       eapply lookup_weaken_None; [exact Hn|exact Hsub].
Qed.

Lemma after_invoke {nr : NumberRendering} {Ext}
    (d : Dispatcher Ext) i (w : World Ext) c h :
  toCall (invoke i) (heap w) = Some (c, h, Ret) →
  after d (invoke i) w = (dispatched d c (mkWorld h (ext w) (trace w))).2.
Proof.
  intros Hc. unfold after. by rewrite (run_toCall _ _ _ _ _ _ Hc), run_call.
Qed.

Lemma heap_dispatched {Ext} (d : Dispatcher Ext) c (w : World Ext) :
  heap (dispatched d c w).2 = (d c (heap w) (ext w)).1.2.
Proof.
  unfold dispatched. by destruct (d c (heap w) (ext w)) as [[r h] x].
Qed.

Lemma heap_after_invoke {nr : NumberRendering} {Ext}
    (d : Dispatcher Ext) i (w : World Ext) :
  keepsObjects d → heap w ⊆ heap (after d (invoke i) w).
Proof.
  intros Hd. destruct (toCall_invoke_heap i (heap w)) as (c & h & Hc & Hs & _).
  rewrite (after_invoke d i w c h Hc), heap_dispatched. cbn [heap ext].
  etrans; [exact Hs|apply Hd].
Qed.

Lemma answering_keepsObjects (p : Promise) : keepsObjects (answering p).
Proof. by intros c h x. Qed.

(** X1: every method hands the dispatcher the callback it was given, or
    none if it was given none: the callback is never replaced or wrapped. *)
Theorem callback_is_handed_over_as_given
    {nr : NumberRendering}
    {Ext : Type} (d : Dispatcher Ext) (i : Invocation) (w : World Ext) :
  map (λ e, call_callback e.1) (issued d (invoke i) w)
    = [invocation_callback i].
Proof.
  destruct (invoke_toCall i (heap w)) as (c & h & Hc & _ & _ & Hcb & _).
  rewrite (issued_invoke d i w c h Hc). cbn. by rewrite Hcb.
Qed.

(** X2: no method changes or removes an object that exists when it is
    invoked: the heap in which the dispatcher is called holds every object
    of the caller's heap, with the properties it had. *)
Theorem existing_objects_are_untouched
    {nr : NumberRendering}
    {Ext : Type} (d : Dispatcher Ext) (i : Invocation) (w : World Ext) :
  ∃ c h,
    issued d (invoke i) w = [(c, h)] ∧
    heap w ⊆ h ∧
    ∀ l o, heap w !! l = Some o → h !! l = Some o.
Proof.
  destruct (toCall_invoke_heap i (heap w)) as (c & h & Hc & Hs & _).
  exists c, h. split; [by apply issued_invoke|]. split; [exact Hs|].
  intros l o Hl. by eapply lookup_weaken.
Qed.

(** X3: a method that carries no payload of the caller (every method but
    [sendEmail], [sendEmailBatch] and [editServer]) hands the dispatcher a
    reference to an object that did not exist before the invocation. *)
Theorem parameters_object_is_new
    {nr : NumberRendering}
    {Ext : Type} (d : Dispatcher Ext) (i : Invocation) (w : World Ext)
    (Hi : interfaceBody i = None) :
  ∃ c h q,
    issued d (invoke i) w = [(c, h)] ∧
    call_payload c = VRef q ∧
    heap w !! q = None ∧
    is_Some (h !! q).
Proof.
  destruct (toCall_invoke_heap i (heap w)) as (c & h & Hc & _ & Hn & _).
  destruct (Hn Hi) as (q & Hp & Hq & Ha).
  exists c, h, q. split; [by apply issued_invoke|]. done.
Qed.

Lemma parameters_object_is_new_witness :
  let nr : NumberRendering := plainDigits in
  interfaceBody (GetBounces None None) = None ∧
  ∃ c h q,
    issued (answering (Fulfilled VNull)) (invoke (GetBounces None None))
      (mkWorld ∅ () []) = [(c, h)] ∧
    call_payload c = VRef q ∧
    (∅ : Heap) !! q = None ∧
    is_Some (h !! q).
Proof.
  intros nr.
  split; [reflexivity|].
  exact (parameters_object_is_new (answering (Fulfilled VNull))
           (GetBounces None None) (mkWorld ∅ () []) eq_refl).
Defined.

(** X4: a method that takes neither payload nor filter passes the literal
    [{}]: the object it hands over is new, has no property, and is the only
    change to the heap. *)
Theorem empty_object_is_the_only_allocation
    {nr : NumberRendering}
    {Ext : Type} (d : Dispatcher Ext) (i : Invocation) (w : World Ext)
    (Hi : sendsEmptyObject i = true) :
  ∃ c q,
    issued d (invoke i) w = [(c, <[q := ∅]> (heap w))] ∧
    call_payload c = VRef q ∧
    heap w !! q = None.
Proof.
  destruct (toCall_invoke_heap i (heap w)) as (c & h & Hc & _ & _ & He).
  destruct (He Hi) as (q & Hp & Hq & ->).
  exists c, q. split; [by apply issued_invoke|]. done.
Qed.

Lemma empty_object_is_the_only_allocation_witness :
  let nr : NumberRendering := plainDigits in
  sendsEmptyObject (GetServer None) = true ∧
  ∃ c q,
    issued (answering (Fulfilled VNull)) (invoke (GetServer None))
      (mkWorld {[ 1%positive := {[ "a" := VNull ]} ]} () [])
      = [(c, <[q := ∅]> {[ 1%positive := {[ "a" := VNull ]} ]})] ∧
    call_payload c = VRef q ∧
    ({[ 1%positive := {[ "a" := VNull ]} ]} : Heap) !! q = None.
Proof.
  intros nr.
  split; [reflexivity|].
  exact (empty_object_is_the_only_allocation (answering (Fulfilled VNull))
           (GetServer None)
           (mkWorld {[ 1%positive := {[ "a" := VNull ]} ]} () []) eq_refl).
Defined.

(** ** More on the query parameters of the list methods *)

(** X5: the keys of the query parameters of a list method are the keys of
    the filter together with [count] and [offset]: no key of the filter is
    dropped and nothing else is added. *)
Theorem query_keys_are_filter_keys_and_paging
    {Ext : Type} (d : Dispatcher Ext) (m : ListMethod)
    (cb : option Callback) (w : World Ext) (l : loc) (o : obj)
    (Hl : heap w !! l = Some o) :
  ∃ q h,
    issued d (listMethod m (Some l) cb) w
      = [(ProcessRequestWithoutBody GET (listPath m) (VRef q) cb, h)] ∧
    dom (ownProps h q) = dom o ∪ {[ "count"; "offset" ]}.
Proof.
  destruct (pagingHeap_spec _ _ _ Hl) as (_ & Hq & _).
  eexists _, _. split; [apply issued_listMethod|].
  rewrite (ownProps_Some _ _ _ Hq). unfold spread, ServerClient.paging.
  rewrite !dom_union_L, !dom_insert_L, dom_empty_L. set_solver.
Qed.

Lemma query_keys_are_filter_keys_and_paging_witness :
  let w := mkWorld {[ 3%positive := {[ "tag" := VStr "welcome" ]} ]} () [] in
  heap w !! 3%positive = Some {[ "tag" := VStr "welcome" ]} ∧
  ∃ q h,
    issued (answering (Fulfilled VNull))
      (listMethod OutboundMessages (Some 3%positive) None) w
      = [(ProcessRequestWithoutBody GET "/messages/outbound" (VRef q) None,
          h)] ∧
    dom (ownProps h q)
      = dom ({[ "tag" := VStr "welcome" ]} : obj) ∪ {[ "count"; "offset" ]}.
Proof.
  intros w. split; [reflexivity|].
  exact (query_keys_are_filter_keys_and_paging (answering (Fulfilled VNull))
           OutboundMessages None w 3%positive {[ "tag" := VStr "welcome" ]}
           eq_refl).
Defined.

(** X6: a filter that has both [count] and [offset] is sent as it is: the
    query parameters are a copy of the filter, property for property, in an
    object other than the caller's. *)
Theorem filter_with_count_and_offset_is_copied
    {Ext : Type} (d : Dispatcher Ext) (m : ListMethod)
    (cb : option Callback) (w : World Ext) (l : loc) (o : obj)
    (Hl : heap w !! l = Some o)
    (Hcount : is_Some (o !! "count"))
    (Hoffset : is_Some (o !! "offset")) :
  ∃ q h,
    issued d (listMethod m (Some l) cb) w
      = [(ProcessRequestWithoutBody GET (listPath m) (VRef q) cb, h)] ∧
    q ≠ l ∧
    h !! q = Some o.
Proof.
  destruct (pagingHeap_spec _ _ _ Hl) as (Hn & Hq & _).
  eexists _, _. split; [apply issued_listMethod|].
  split; [congruence|]. rewrite Hq. f_equal. apply map_eq. intros k.
  rewrite spread_paging_lookup. destruct (o !! k) as [v|] eqn:Hk; [done|].
  unfold ServerClient.paging.
  destruct (decide (k = "count")) as [->|Hc].
  { rewrite Hk in Hcount. by destruct Hcount. }
  destruct (decide (k = "offset")) as [->|Ho].
  { rewrite Hk in Hoffset. by destruct Hoffset. }
  by rewrite lookup_insert_ne, lookup_singleton_ne.
Qed.

Lemma filter_with_count_and_offset_is_copied_witness :
  let o : obj := {[ "count" := VNum 25; "offset" := VUndefined ]} in
  let w := mkWorld {[ 5%positive := o ]} () [] in
  heap w !! 5%positive = Some o ∧
  is_Some (o !! "count") ∧
  is_Some (o !! "offset") ∧
  ∃ q h,
    issued (answering (Fulfilled VNull))
      (listMethod Bounces (Some 5%positive) None) w
      = [(ProcessRequestWithoutBody GET "/bounces" (VRef q) None, h)] ∧
    q ≠ 5%positive ∧
    h !! q = Some o.
Proof.
  intros o w. split; [reflexivity|].
  split; [by eexists|]. split; [by eexists|].
  exact (filter_with_count_and_offset_is_copied (answering (Fulfilled VNull))
           Bounces None w 5%positive o eq_refl
           (ex_intro _ (VNum 25) eq_refl) (ex_intro _ VUndefined eq_refl)).
Defined.

(** ** Sequences of invocations *)

Lemma trace_after_invoke {nr : NumberRendering} {Ext}
    (d : Dispatcher Ext) i (w : World Ext) c h :
  toCall (invoke i) (heap w) = Some (c, h, Ret) →
  trace (after d (invoke i) w) = trace w ++ [(c, h)].
Proof.
  intros Hc. by rewrite (after_invoke d i w c h Hc), trace_dispatched.
Qed.

(** X7: what a method sends depends on its arguments and on the heap only:
    not on the dispatcher, not on the dispatcher's state, not on the calls
    made before. *)
Theorem call_depends_on_arguments_and_heap_only
    {nr : NumberRendering}
    {Ext1 Ext2 : Type} (d1 : Dispatcher Ext1) (d2 : Dispatcher Ext2)
    (i : Invocation) (w1 : World Ext1) (w2 : World Ext2)
    (Hh : heap w1 = heap w2) :
  issued d1 (invoke i) w1 = issued d2 (invoke i) w2.
Proof.
  destruct (invoke_toCall i (heap w1)) as (c & h & Hc & _).
  rewrite (issued_invoke d1 i w1 c h Hc).
  rewrite Hh in Hc. by rewrite (issued_invoke d2 i w2 c h Hc).
Qed.

Lemma call_depends_on_arguments_and_heap_only_witness :
  let nr : NumberRendering := plainDigits in
  let i := GetBounce 7 (Some (Fn 1)) in
  let w1 := mkWorld ∅ () [] in
  let w2 := mkWorld ∅ (mkNet [] [])
              [(ProcessRequestWithBody POST "/email" VNull None, ∅)] in
  heap w1 = heap w2 ∧
  issued (answering (Fulfilled VNull)) (invoke i) w1
    = issued (BaseClient.processRequest (λ _, NoReply VNull)
                (ServerClient.constructor "X" "t" None)) (invoke i) w2.
Proof.
  intros nr i w1 w2. split; [reflexivity|].
  exact (call_depends_on_arguments_and_heap_only
           (answering (Fulfilled VNull))
           (BaseClient.processRequest (λ _, NoReply VNull)
              (ServerClient.constructor "X" "t" None))
           i w1 w2 eq_refl).
Defined.

(** X9: with a dispatcher that keeps the objects of the heap as they are,
    no sequence of invocations changes or removes an object: whatever the
    caller holds before still has its properties afterwards. *)
Theorem objects_survive_any_sequence
    {nr : NumberRendering}
    {Ext : Type} (d : Dispatcher Ext) (invs : list Invocation)
    (w : World Ext) (Hd : keepsObjects d) :
  heap w ⊆ heap (runAll d invs w) ∧
  ∀ l o, heap w !! l = Some o → heap (runAll d invs w) !! l = Some o.
Proof.
  assert (Hs : heap w ⊆ heap (runAll d invs w)).
  { revert w. induction invs as [|i invs IH]; intros w; [done|].
    cbn [runAll foldl]. fold (runAll d invs (after d (invoke i) w)).
    etrans; [by apply heap_after_invoke|apply IH]. }
  split; [exact Hs|]. intros l o Hl. by eapply lookup_weaken.
Qed.

Lemma objects_survive_any_sequence_witness :
  let nr : NumberRendering := plainDigits in
  let o : obj := {[ "count" := VNum 3 ]} in
  let w := mkWorld {[ 1%positive := o ]} () [] in
  let invs := [GetBounces (Some 1%positive) None; GetServer None;
               GetInboundMessages (Some 1%positive) None] in
  keepsObjects (answering (Fulfilled VNull)) ∧
  heap (runAll (answering (Fulfilled VNull)) invs w) !! 1%positive = Some o.
Proof.
  intros nr o w invs. split; [apply answering_keepsObjects|].
  exact (proj2 (objects_survive_any_sequence (answering (Fulfilled VNull))
                  invs w (answering_keepsObjects (Fulfilled VNull)))
           1%positive o eq_refl).
Defined.

(** X10: two invocations in a row never share the object they hand over:
    with a dispatcher that keeps the objects of the heap, the parameters
    object of the second call is another object than that of the first. *)
Theorem successive_calls_get_distinct_objects
    {nr : NumberRendering}
    {Ext : Type} (d : Dispatcher Ext) (i1 i2 : Invocation) (w : World Ext)
    (H1 : interfaceBody i1 = None)
    (H2 : interfaceBody i2 = None)
    (Hd : keepsObjects d) :
  ∃ c1 h1 c2 h2,
    trace (runAll d [i1; i2] w) = trace w ++ [(c1, h1); (c2, h2)] ∧
    call_payload c1 ≠ call_payload c2.
Proof.
  destruct (toCall_invoke_heap i1 (heap w)) as (c1 & h1 & Hc1 & _ & Hn1 & _).
  destruct (Hn1 H1) as (q1 & Hp1 & _ & Ha1).
  set (w1 := after d (invoke i1) w).
  destruct (toCall_invoke_heap i2 (heap w1)) as (c2 & h2 & Hc2 & _ & Hn2 & _).
  destruct (Hn2 H2) as (q2 & Hp2 & Hq2 & _).
  exists c1, h1, c2, h2. split.
  - cbn [runAll foldl]. fold w1.
    rewrite (trace_after_invoke d i2 w1 c2 h2 Hc2). unfold w1.
    rewrite (trace_after_invoke d i1 w c1 h1 Hc1). by rewrite <- app_assoc.
  - rewrite Hp1, Hp2. intros [= ->]. destruct Ha1 as [o Ho].
    assert (Hw1 : heap w1 !! q2 = Some o).
    { unfold w1. rewrite (after_invoke d i1 w c1 h1 Hc1), heap_dispatched.
      cbn [heap ext]. eapply lookup_weaken; [exact Ho|apply Hd]. }
    congruence.
Qed.

Lemma successive_calls_get_distinct_objects_witness :
  let nr : NumberRendering := plainDigits in
  let i1 := GetServer None in
  let i2 := GetBounces None None in
  interfaceBody i1 = None ∧
  interfaceBody i2 = None ∧
  keepsObjects (answering (Fulfilled VNull)) ∧
  ∃ c1 h1 c2 h2,
    trace (runAll (answering (Fulfilled VNull)) [i1; i2] (mkWorld ∅ () []))
      = [] ++ [(c1, h1); (c2, h2)] ∧
    call_payload c1 ≠ call_payload c2.
Proof.
  intros nr i1 i2. split; [reflexivity|]. split; [reflexivity|].
  split; [apply answering_keepsObjects|].
  exact (successive_calls_get_distinct_objects (answering (Fulfilled VNull))
           i1 i2 (mkWorld ∅ () []) eq_refl eq_refl
           (answering_keepsObjects (Fulfilled VNull))).
Defined.

(** ** Paths and identifiers *)

Lemma string_length_app (s t : string) :
  String.length (s +:+ t) = (String.length s + String.length t)%nat.
Proof.
  induction s as [|a s IH]; [done|].
  change (String a s +:+ t) with (String a (s +:+ t)). cbn. by rewrite IH.
Qed.

Lemma string_app_inj_r (s1 s2 t : string) : s1 +:+ t = s2 +:+ t → s1 = s2.
Proof.
  revert s2. induction s1 as [|a s1 IH]; intros [|b s2] E.
  - done.
  - apply (f_equal String.length) in E.
    rewrite !string_length_app in E. cbn in E. lia.
  - apply (f_equal String.length) in E.
    rewrite !string_length_app in E. cbn in E. lia.
  - change (String a (s1 +:+ t) = String b (s2 +:+ t)) in E.
    injection E as -> E. f_equal. by apply IH.
Qed.

Lemma path_inj (prefix suffix s1 s2 : string) :
  prefix +:+ s1 +:+ suffix = prefix +:+ s2 +:+ suffix ↔ s1 = s2.
Proof.
  split; [|by intros ->].
  intros E%(inj (String.app prefix)). by eapply string_app_inj_r.
Qed.

Lemma path_inj_end (prefix s1 s2 : string) :
  prefix +:+ s1 = prefix +:+ s2 ↔ s1 = s2.
Proof. split; [apply (inj (String.app prefix))|by intros ->]. Qed.

Lemma singleton_inj {A} (x y : A) : [x] = [y] ↔ x = y.
Proof. split; [by intros [= ->]|by intros ->]. Qed.

(** Rewrites the paths of two invocations into their closed form. *)
Ltac paths_of nr d w i1 i2 :=
  let H1 := fresh "Hpath" in
  let H2 := fresh "Hpath" in
  pose proof (sentPaths_invoke (nr := nr) d i1 w _ _ eq_refl) as H1;
  pose proof (sentPaths_invoke (nr := nr) d i2 w _ _ eq_refl) as H2;
  cbn [invoke call_path] in H1, H2; rewrite H1, H2; clear H1 H2.

Lemma toString_safe {nr : NumberRendering} (n : Z) :
  isSafeInteger n = true → toString n = pretty n.
Proof. intros Hn. unfold toString, number_ToString. by rewrite Hn. Qed.

(** X11: within each method templated by a message identifier, two
    invocations issue the same path only for the same identifier: distinct
    identifiers never meet on one path. *)
Theorem distinct_identifiers_give_distinct_paths
    {Ext : Type} (d : Dispatcher Ext) (w : World Ext) (cb : option Callback)
    (m1 m2 : string) :
  (sentPaths d (ServerClient.getOutboundMessageDetails m1 cb) w
     = sentPaths d (ServerClient.getOutboundMessageDetails m2 cb) w
   ↔ m1 = m2) ∧
  (sentPaths d (ServerClient.getOutboundMessageDump m1 cb) w
     = sentPaths d (ServerClient.getOutboundMessageDump m2 cb) w
   ↔ m1 = m2) ∧
  (sentPaths d (ServerClient.getInboundMessageDetails m1 cb) w
     = sentPaths d (ServerClient.getInboundMessageDetails m2 cb) w
   ↔ m1 = m2) ∧
  (sentPaths d (ServerClient.bypassBlockedInboundMessage m1 cb) w
     = sentPaths d (ServerClient.bypassBlockedInboundMessage m2 cb) w
   ↔ m1 = m2) ∧
  (sentPaths d (ServerClient.retryInboundHookForMessage m1 cb) w
     = sentPaths d (ServerClient.retryInboundHookForMessage m2 cb) w
   ↔ m1 = m2).
Proof.
  repeat split.
  all: try (intros ->; reflexivity).
  - paths_of plainDigits d w (GetOutboundMessageDetails m1 cb)
      (GetOutboundMessageDetails m2 cb).
    by intros ?%singleton_inj%path_inj_end.
  - paths_of plainDigits d w (GetOutboundMessageDump m1 cb)
      (GetOutboundMessageDump m2 cb).
    by intros ?%singleton_inj%path_inj.
  - paths_of plainDigits d w (GetInboundMessageDetails m1 cb)
      (GetInboundMessageDetails m2 cb).
    by intros ?%singleton_inj%path_inj.
  - paths_of plainDigits d w (BypassBlockedInboundMessage m1 cb)
      (BypassBlockedInboundMessage m2 cb).
    by intros ?%singleton_inj%path_inj.
  - paths_of plainDigits d w (RetryInboundHookForMessage m1 cb)
      (RetryInboundHookForMessage m2 cb).
    by intros ?%singleton_inj%path_inj.
Qed.

(** X15: within each method templated by a bounce identifier, two
    invocations with safe integers as identifiers issue the same path only
    for the same identifier. *)
Theorem distinct_safe_numbers_give_distinct_paths
    {nr : NumberRendering}
    {Ext : Type} (d : Dispatcher Ext) (w : World Ext) (cb : option Callback)
    (id1 id2 : Z)
    (Hs1 : isSafeInteger id1 = true)
    (Hs2 : isSafeInteger id2 = true) :
  (sentPaths d (ServerClient.getBounce id1 cb) w
     = sentPaths d (ServerClient.getBounce id2 cb) w ↔ id1 = id2) ∧
  (sentPaths d (ServerClient.getBounceDump id1 cb) w
     = sentPaths d (ServerClient.getBounceDump id2 cb) w ↔ id1 = id2) ∧
  (sentPaths d (ServerClient.activateBounce id1 cb) w
     = sentPaths d (ServerClient.activateBounce id2 cb) w ↔ id1 = id2).
Proof.
  assert (Hz : toString id1 = toString id2 → id1 = id2).
  { rewrite !toString_safe by done. apply (inj pretty). }
  repeat split.
  all: try (intros ->; reflexivity).
  - paths_of nr d w (GetBounce id1 cb) (GetBounce id2 cb).
    by intros ?%singleton_inj%path_inj_end%Hz.
  - paths_of nr d w (GetBounceDump id1 cb) (GetBounceDump id2 cb).
    by intros ?%singleton_inj%path_inj%Hz.
  - paths_of nr d w (ActivateBounce id1 cb) (ActivateBounce id2 cb).
    by intros ?%singleton_inj%path_inj%Hz.
Qed.

Lemma distinct_safe_numbers_give_distinct_paths_witness :
  let nr : NumberRendering := plainDigits in
  let w := mkWorld ∅ () [] in
  isSafeInteger 41 = true ∧
  isSafeInteger 42 = true ∧
  (sentPaths (answering (Fulfilled VNull))
     (ServerClient.getBounceDump 41 None) w
   = sentPaths (answering (Fulfilled VNull))
       (ServerClient.getBounceDump 42 None) w ↔ 41 = 42).
Proof.
  intros nr w. split; [reflexivity|]. split; [reflexivity|].
  exact (proj1 (proj2 (distinct_safe_numbers_give_distinct_paths
                         (answering (Fulfilled VNull)) w None 41 42
                         eq_refl eq_refl))).
Defined.

(** X12: an identifier is not kept apart from the rest of the path.  The
    detail and the dump lookup of an outbound message issue the same path
    exactly when the identifier of the first is that of the second followed
    by [/dump]; the two invocations then run alike. *)
Theorem outbound_details_meets_dump
    {Ext : Type} (d : Dispatcher Ext) (w : World Ext) (cb : option Callback)
    (m1 m2 : string) :
  (sentPaths d (ServerClient.getOutboundMessageDetails m1 cb) w
     = sentPaths d (ServerClient.getOutboundMessageDump m2 cb) w
   ↔ m1 = m2 +:+ "/dump") ∧
  run d (ServerClient.getOutboundMessageDetails (m2 +:+ "/dump") cb) w
    = run d (ServerClient.getOutboundMessageDump m2 cb) w.
Proof.
  split; [|reflexivity].
  paths_of plainDigits d w (GetOutboundMessageDetails m1 cb)
    (GetOutboundMessageDump m2 cb).
  rewrite singleton_inj. apply path_inj_end.
Qed.

Lemma allChars_app (P : ascii → bool) (s t : string) :
  allChars P (s +:+ t) = allChars P s && allChars P t.
Proof.
  induction s as [|a s IH]; [done|].
  change (String a s +:+ t) with (String a (s +:+ t)). cbn [allChars].
  by rewrite IH, andb_assoc.
Qed.

Lemma pretty_N_go_chars (x : N) (s : string) :
  allChars isDigitOrMinus s = true →
  allChars isDigitOrMinus (pretty_N_go x s) = true.
Proof.
  revert s. induction (N.lt_wf_0 x) as [x _ IH]; intros s Hs.
  assert (x = 0 ∨ 0 < x)%N as [->|Hx] by lia.
  - by rewrite pretty_N_go_0.
  - rewrite pretty_N_go_step by done. apply IH; [by apply N.div_lt|].
    cbn [allChars]. rewrite Hs, andb_true_r.
    unfold pretty_N_char. by repeat case_match.
Qed.

Lemma pretty_Z_chars (n : Z) : allChars isDigitOrMinus (pretty n) = true.
Proof.
  assert (Hp : ∀ p : positive,
             allChars isDigitOrMinus (pretty (Npos p)) = true).
  { intros p. unfold pretty, pretty_N. case_decide; [done|].
    by apply pretty_N_go_chars. }
  unfold pretty, pretty_Z.
  destruct n as [|p|p]; [done|apply Hp|].
  rewrite allChars_app. apply andb_true_intro. split; [done|apply Hp].
Qed.

(** The rendering of a safe integer has digits and a minus sign only. *)
Lemma toString_number_chars {nr : NumberRendering} (n : Z) :
  isSafeInteger n = true → allChars isDigitOrMinus (toString n) = true.
Proof. intros Hn. rewrite (toString_safe n Hn). apply pretty_Z_chars. Qed.

(** X13: a safe integer as identifier cannot steer [getBounce] to another
    bounce endpoint: the path of [getBounce] is then never [/bounces/tags],
    never a path of [getBounceDump] and never a path of [activateBounce],
    whatever the identifier of the latter. *)
Theorem getBounce_meets_no_other_bounce_path
    {nr : NumberRendering}
    {Ext : Type} (d : Dispatcher Ext) (w : World Ext) (cb : option Callback)
    (id id' : Z)
    (Hsafe : isSafeInteger id = true) :
  sentPaths d (ServerClient.getBounce id cb) w
    ≠ sentPaths d (ServerClient.getBounceTags cb) w ∧
  sentPaths d (ServerClient.getBounce id cb) w
    ≠ sentPaths d (ServerClient.getBounceDump id' cb) w ∧
  sentPaths d (ServerClient.getBounce id cb) w
    ≠ sentPaths d (ServerClient.activateBounce id' cb) w.
Proof.
  pose proof (toString_number_chars id Hsafe) as Hid.
  repeat split.
  - paths_of nr d w (GetBounce id cb) (GetBounceTags cb).
    change "/bounces/tags" with ("/bounces/" +:+ "tags").
    intros E%singleton_inj%path_inj_end. by rewrite E in Hid.
  - paths_of nr d w (GetBounce id cb) (GetBounceDump id' cb).
    intros E%singleton_inj%path_inj_end. rewrite E, allChars_app in Hid.
    apply andb_prop in Hid as [_ Hid]. done.
  - paths_of nr d w (GetBounce id cb) (ActivateBounce id' cb).
    intros E%singleton_inj%path_inj_end. rewrite E, allChars_app in Hid.
    apply andb_prop in Hid as [_ Hid]. done.
Qed.

Lemma getBounce_meets_no_other_bounce_path_witness :
  let nr : NumberRendering := plainDigits in
  let w := mkWorld ∅ () [] in
  isSafeInteger 12345 = true ∧
  sentPaths (answering (Fulfilled VNull)) (ServerClient.getBounce 12345 None)
    w
    ≠ sentPaths (answering (Fulfilled VNull))
        (ServerClient.getBounceDump 12345 None) w.
Proof.
  intros nr w. split; [reflexivity|].
  exact (proj1 (proj2 (getBounce_meets_no_other_bounce_path
                         (answering (Fulfilled VNull)) w None 12345 12345
                         eq_refl))).
Defined.

Lemma lastChar_app (s t : string) :
  t ≠ "" → lastChar (s +:+ t) = lastChar t.
Proof.
  intros Ht. induction s as [|a s IH]; [done|].
  change (String a s +:+ t) with (String a (s +:+ t)). cbn [lastChar].
  rewrite IH. destruct t as [|b t]; [done|]. cbn [lastChar].
  by destruct (lastChar t).
Qed.

Lemma allChars_reaches (P : ascii → bool) (s s1 t : string) (a : ascii) :
  allChars P s = true → s = s1 +:+ String a t → P a = true.
Proof.
  intros Hs ->. rewrite allChars_app in Hs. cbn [allChars] in Hs.
  by apply andb_prop in Hs as [_ [? _]%andb_prop].
Qed.

(** Brings an equation between two paths to its variable parts. *)
Ltac split_paths H :=
  unfold String.append in H; cbn -[toString] in H; simplify_eq;
  try fold String.append in *.

Lemma interfaceTable_meets {nr : NumberRendering} (i1 i2 : Invocation) :
  safeBounceId i1 = true → safeBounceId i2 = true →
  interfaceTable i1 = interfaceTable i2 →
  sameMethod i1 i2 = true ∨ detailsOfDump i1 i2 ∨ detailsOfDump i2 i1.
Proof.
  destruct i1 as [? ?|? ?|?|? ?|a ?|a ?|a ?|?|?|? ?|? ?|m1 ?|m1 ?|? ?
                 |m1 ?|m1 ?|m1 ?];
    destruct i2 as [? ?|? ?|?|? ?|b ?|b ?|b ?|?|?|? ?|? ?|m2 ?|m2 ?|? ?
                   |m2 ?|m2 ?|m2 ?];
    intros Hs1 Hs2 H; try (left; reflexivity); try discriminate H;
    cbn [interfaceTable] in H; cbn [safeBounceId] in Hs1, Hs2;
    injection H as H.
  all: try (exfalso; split_paths H; fail).
  all: unfold String.append in H; cbn -[toString] in H;
       fold String.append in H; unfold toString, string_ToString in H.
  - exfalso.
    apply (allChars_reaches isDigitOrMinus _ _ _ _
             (toString_number_chars a Hs1)) in H.
    by vm_compute in H.
  - exfalso. pose proof (toString_number_chars a Hs1) as Hc.
    unfold toString in Hc. rewrite H in Hc. by vm_compute in Hc.
  - exfalso. symmetry in H.
    apply (allChars_reaches isDigitOrMinus _ _ _ _
             (toString_number_chars b Hs2)) in H.
    by vm_compute in H.
  - exfalso. apply (f_equal String.length) in H.
    rewrite string_length_app in H. cbn in H. lia.
  - exfalso. pose proof (toString_number_chars b Hs2) as Hc.
    unfold toString in Hc. rewrite <- H in Hc. by vm_compute in Hc.
  - exfalso. apply (f_equal String.length) in H.
    rewrite string_length_app in H. cbn in H. lia.
  - subst m1. right; left. by eexists _, _, _.
  - subst m2. right; right. by eexists _, _, _.
  - exfalso. apply (f_equal lastChar) in H.
    rewrite !lastChar_app in H by done. by vm_compute in H.
  - exfalso. apply (f_equal lastChar) in H.
    rewrite !lastChar_app in H by done. by vm_compute in H.
Qed.

(** X14: apart from one pair of methods, no two methods can send the same
    verb and path.  Two invocations that issue the same request line, a
    [getBounce] among them having a safe integer as identifier, are
    invocations of the same method, unless one is the detail lookup of an
    outbound message and the other the dump lookup of the identifier that
    the first one's identifier extends by [/dump]. *)
Theorem same_request_line_same_method
    {nr : NumberRendering}
    {Ext : Type} (d : Dispatcher Ext) (w : World Ext) (i1 i2 : Invocation)
    (Hs1 : safeBounceId i1 = true)
    (Hs2 : safeBounceId i2 = true)
    (Hline : map requestLine (issued d (invoke i1) w)
             = map requestLine (issued d (invoke i2) w)) :
  sameMethod i1 i2 = true ∨ detailsOfDump i1 i2 ∨ detailsOfDump i2 i1.
Proof.
  destruct (invoke_toCall i1 (heap w)) as (c1 & h1 & Hc1 & Hm1 & Hp1 & _).
  destruct (invoke_toCall i2 (heap w)) as (c2 & h2 & Hc2 & Hm2 & Hp2 & _).
  rewrite (issued_invoke d i1 w c1 h1 Hc1) in Hline.
  rewrite (issued_invoke d i2 w c2 h2 Hc2) in Hline.
  cbn [map] in Hline. apply (proj1 (singleton_inj _ _)) in Hline.
  unfold requestLine in Hline. cbn [fst] in Hline.
  rewrite Hm1, Hp1, Hm2, Hp2 in Hline.
  apply interfaceTable_meets; [done..|].
  destruct (interfaceTable i1), (interfaceTable i2). exact Hline.
Qed.

Lemma same_request_line_same_method_witness :
  let nr : NumberRendering := plainDigits in
  let w := mkWorld ∅ () [] in
  let i1 := GetOutboundMessageDetails "0c1f/dump" None in
  let i2 := GetOutboundMessageDump "0c1f" (Some (Fn 2)) in
  safeBounceId i1 = true ∧
  safeBounceId i2 = true ∧
  map requestLine (issued (answering (Fulfilled VNull)) (invoke i1) w)
    = map requestLine (issued (answering (Fulfilled VNull)) (invoke i2) w) ∧
  (sameMethod i1 i2 = true ∨ detailsOfDump i1 i2 ∨ detailsOfDump i2 i1).
Proof.
  intros nr w i1 i2. split; [reflexivity|]. split; [reflexivity|].
  split; [reflexivity|].
  exact (same_request_line_same_method (answering (Fulfilled VNull)) w i1 i2
           eq_refl eq_refl eq_refl).
Defined.


(** * The methods on objects with accessor properties *)

(** ** The interpreter *)

Lemma objectAt_insert_eq (h : AHeap) (l : loc) (a : AObject) :
  objectAt (<[l := a]> h) l = a.
Proof. unfold objectAt. by rewrite lookup_insert_eq. Qed.

Lemma objectAt_insert_ne (h : AHeap) (l l' : loc) (a : AObject) :
  l ≠ l' → objectAt (<[l := a]> h) l' = objectAt h l'.
Proof. intros Hne. unfold objectAt. by rewrite lookup_insert_ne. Qed.

Lemma getAll_Abrupt (gs : list (string * Completion value)) (acc : obj) e :
  getAll gs acc = Abrupt e → ∃ k, (k, Abrupt e) ∈ gs.
Proof.
  revert acc. induction gs as [|[k [v|e']] gs IH]; intros acc Hg; cbn in Hg.
  - done.
  - destruct (IH _ Hg) as [k' Hk]. exists k'. by right.
  - injection Hg as ->. exists k. by left.
Qed.

Lemma readProps_no_accessors (a : AObject) :
  ao_accessors a = [] → readProps a = Normal (ao_data a).
Proof. intros Ha. unfold readProps. by rewrite Ha. Qed.

Section AccessorRuns.
Context {Ext : Type}.
Variable d : ADispatcher Ext.

Lemma runA_call (c : DispatchCall) (w : AWorld Ext) :
  runA d (Call c Ret) w = dispatchedA d c w.
Proof.
  unfold dispatchedA. cbn -[app].
  by destruct (d c (aheap w) (aext w)) as [[[p|e] h] x].
Qed.

Lemma atrace_dispatchedA (c : DispatchCall) (w : AWorld Ext) :
  atrace (dispatchedA d c w).2 = atrace w ++ [(c, aheap w)].
Proof.
  unfold dispatchedA. by destruct (d c (aheap w) (aext w)) as [[r h] x].
Qed.

Lemma runA_toCallA {R} (p : Prog R) (w : AWorld Ext) :
  runA d p w =
    match toCallA p (aheap w) with
    | Reached c h k => runA d (Call c k) (mkAWorld h (aext w) (atrace w))
    | Raised e h => (Abrupt e, mkAWorld h (aext w) (atrace w))
    | Returned r h => (Normal r, mkAWorld h (aext w) (atrace w))
    end.
Proof.
  revert w. induction p as [r|e|o k IH|l k IH|l o k IH|c k IH]; intros w.
  - by destruct w.
  - by destruct w.
  - cbn -[app]. by rewrite IH.
  - cbn -[app]. destruct (readProps (objectAt (aheap w) l)) as [o|e].
    + apply IH.
    + by destruct w.
  - cbn -[app]. by rewrite IH.
  - by destruct w.
Qed.
End AccessorRuns.

(** ** The filter of a list method *)

Lemma toCallA_listMethod_Some (m : ListMethod) (l : loc) cb (h : AHeap) :
  toCallA (listMethod m (Some l) cb) h =
    match readProps (objectAt (pagingStart h).2 l) with
    | Normal o =>
        Reached
          (ProcessRequestWithoutBody GET (listPath m)
             (VRef (pagingStart h).1) cb)
          (<[(pagingStart h).1 :=
               defineData (objectAt (pagingStart h).2 (pagingStart h).1) o]>
             (pagingStart h).2)
          Ret
    | Abrupt e => Raised e (pagingStart h).2
    end.
Proof.
  destruct m; cbn -[readProps objectAt defineData];
    rewrite objectAt_insert_eq;
    change (readProps (dataObject ServerClient.paging))
      with (Normal (R := gmap string value) ServerClient.paging);
    reflexivity.
Qed.

Lemma pagingStart_object (h : AHeap) (l : loc) :
  (is_Some (h !! l) → objectAt (pagingStart h).2 l = objectAt h l) ∧
  (h !! l = None → ao_accessors (objectAt (pagingStart h).2 l) = []).
Proof.
  unfold pagingStart. cbn [fst snd].
  set (m := fresh (dom h)).
  set (h1 := <[m := dataObject ∅]> h).
  set (dl := fresh (dom h1)).
  assert (Hm : h !! m = None) by apply not_elem_of_dom, is_fresh.
  assert (Hdl : h1 !! dl = None) by apply not_elem_of_dom, is_fresh.
  assert (Hne : m ≠ dl).
  { intros E. rewrite <- E in Hdl. unfold h1 in Hdl.
    by rewrite lookup_insert_eq in Hdl. }
  assert (Hd : h !! dl = None).
  { unfold h1 in Hdl. by rewrite lookup_insert_ne in Hdl. }
  assert (Hom : objectAt (<[dl := dataObject ServerClient.paging]> h1) m
                = dataObject ∅).
  { rewrite objectAt_insert_ne by done. apply objectAt_insert_eq. }
  rewrite Hom. split.
  - intros [a Ha]. rewrite !objectAt_insert_ne by congruence.
    unfold h1. by rewrite objectAt_insert_ne by congruence.
  - intros Hl. destruct (decide (m = l)) as [<-|Hml].
    { by rewrite objectAt_insert_eq. }
    rewrite objectAt_insert_ne by done.
    destruct (decide (dl = l)) as [<-|Hdll].
    { by rewrite objectAt_insert_eq. }
    rewrite objectAt_insert_ne by done. unfold h1.
    rewrite objectAt_insert_ne by done. unfold objectAt. by rewrite Hl.
Qed.

Lemma readProps_pagingStart (h : AHeap) (l : loc) :
  match readProps (objectAt h l) with
  | Normal _ => ∃ o, readProps (objectAt (pagingStart h).2 l) = Normal o
  | Abrupt e => readProps (objectAt (pagingStart h).2 l) = Abrupt e
  end.
Proof.
  destruct (pagingStart_object h l) as [Hin Hout].
  destruct (h !! l) as [a|] eqn:Hl.
  - rewrite Hin by by eexists. destruct (readProps (objectAt h l)); eauto.
  - rewrite (readProps_no_accessors _ (Hout eq_refl)).
    unfold objectAt at 1. rewrite Hl. cbn. eauto.
Qed.

Lemma invoke_toCallA {nr : NumberRendering} (i : Invocation) (h : AHeap) :
  match readFilter i h with
  | Normal _ =>
      ∃ c h', toCallA (invoke i) h = Reached c h' Ret ∧
              lineOf c = (interfaceTable i, invocation_callback i)
  | Abrupt e => ∃ h', toCallA (invoke i) h = Raised e h'
  end.
Proof.
  destruct i as [? ?|? ?|?|[l|] ?|? ?|? ?|? ?|?|?|? ?|[l|] ?|? ?|? ?|[l|] ?
                |? ?|? ?|? ?].
  all: try (cbn [readFilter filterOf]; eexists _, _; split; reflexivity).
  all: cbn [readFilter filterOf invoke].
  - rewrite (toCallA_listMethod_Some Bounces).
    pose proof (readProps_pagingStart h l) as Hr.
    destruct (readProps (objectAt h l)) as [o|e].
    + destruct Hr as [o' ->]. by eexists _, _.
    + rewrite Hr. by eexists.
  - change (ServerClient.getBounces None callback)
      with (NewObject ∅ (λ f, listMethod Bounces (Some f) callback)).
    cbn [toCallA]. rewrite (toCallA_listMethod_Some Bounces).
    pose proof (readProps_pagingStart
                  (<[fresh (dom h) := dataObject ∅]> h) (fresh (dom h))) as Hr.
    rewrite objectAt_insert_eq in Hr.
    cbn [readProps dataObject getAll ao_accessors ao_data] in Hr.
    destruct Hr as [o' ->].
    by eexists _, _.
  - rewrite (toCallA_listMethod_Some OutboundMessages).
    pose proof (readProps_pagingStart h l) as Hr.
    destruct (readProps (objectAt h l)) as [o|e].
    + destruct Hr as [o' ->]. by eexists _, _.
    + rewrite Hr. by eexists.
  - change (ServerClient.getOutboundMessages None callback)
      with (NewObject ∅ (λ f, listMethod OutboundMessages (Some f) callback)).
    cbn [toCallA]. rewrite (toCallA_listMethod_Some OutboundMessages).
    pose proof (readProps_pagingStart
                  (<[fresh (dom h) := dataObject ∅]> h) (fresh (dom h))) as Hr.
    rewrite objectAt_insert_eq in Hr.
    cbn [readProps dataObject getAll ao_accessors ao_data] in Hr.
    destruct Hr as [o' ->].
    by eexists _, _.
  - rewrite (toCallA_listMethod_Some InboundMessages).
    pose proof (readProps_pagingStart h l) as Hr.
    destruct (readProps (objectAt h l)) as [o|e].
    + destruct Hr as [o' ->]. by eexists _, _.
    + rewrite Hr. by eexists.
  - change (ServerClient.getInboundMessages None callback)
      with (NewObject ∅ (λ f, listMethod InboundMessages (Some f) callback)).
    cbn [toCallA]. rewrite (toCallA_listMethod_Some InboundMessages).
    pose proof (readProps_pagingStart
                  (<[fresh (dom h) := dataObject ∅]> h) (fresh (dom h))) as Hr.
    rewrite objectAt_insert_eq in Hr.
    cbn [readProps dataObject getAll ao_accessors ao_data] in Hr.
    destruct Hr as [o' ->].
    by eexists _, _.
Qed.

Lemma readFilter_Abrupt (i : Invocation) (h : AHeap) e :
  readFilter i h = Abrupt e →
  ∃ l k, filterOf i = Some l ∧ (k, Abrupt e) ∈ ao_accessors (objectAt h l).
Proof.
  unfold readFilter. destruct (filterOf i) as [l|]; [|done].
  intros [k Hk]%getAll_Abrupt. by exists l, k.
Qed.

Lemma runA_invoke {nr : NumberRendering} {Ext} (d : ADispatcher Ext)
    (i : Invocation) (w : AWorld Ext) :
  match readFilter i (aheap w) with
  | Normal _ =>
      ∃ c h, toCallA (invoke i) (aheap w) = Reached c h Ret ∧
             lineOf c = (interfaceTable i, invocation_callback i) ∧
             runA d (invoke i) w
               = dispatchedA d c (mkAWorld h (aext w) (atrace w))
  | Abrupt e =>
      ∃ h, runA d (invoke i) w
           = (Abrupt e, mkAWorld h (aext w) (atrace w))
  end.
Proof.
  pose proof (invoke_toCallA i (aheap w)) as Hi.
  destruct (readFilter i (aheap w)) as [o|e].
  - destruct Hi as (c & h & Hc & Hl). exists c, h.
    split; [exact Hc|]. split; [exact Hl|].
    by rewrite runA_toCallA, Hc, runA_call.
  - destruct Hi as (h & Hc). exists h. by rewrite runA_toCallA, Hc.
Qed.

(** ** Failures, calls and results *)

(** C4, as the code has it: a method raises on its own only when it is a
    list method whose filter has an accessor property with a getter that
    raises: spreading the filter runs the getter, and the method ends with
    the getter's error before any call of the dispatcher.  Otherwise it
    reaches its call by heap steps alone, what remains is to return the
    promise, and the invocation ends the way the dispatcher's call ended:
    a failure the caller sees is then the dispatcher's, raised or as the
    rejection of the promise, unchanged, and the call is made once. *)
Theorem failures_are_the_dispatchers_or_a_getters
    {nr : NumberRendering}
    {Ext : Type} (d : ADispatcher Ext) (i : Invocation) (w : AWorld Ext) :
  match readFilter i (aheap w) with
  | Normal _ =>
      ∃ c h,
        toCallA (invoke i) (aheap w) = Reached c h Ret ∧
        issuedA d (invoke i) w = [(c, h)] ∧
        outcomeA d (invoke i) w = (d c h (aext w)).1.1
  | Abrupt e =>
      outcomeA d (invoke i) w = Abrupt e ∧
      issuedA d (invoke i) w = [] ∧
      ∃ l k, filterOf i = Some l ∧
             (k, Abrupt e) ∈ ao_accessors (objectAt (aheap w) l)
  end.
Proof.
  pose proof (runA_invoke d i w) as Hrun.
  destruct (readFilter i (aheap w)) as [o|e] eqn:Hread.
  - destruct Hrun as (c & h & Hc & _ & Hrun). exists c, h.
    split; [exact Hc|]. unfold issuedA, afterA, outcomeA. rewrite Hrun.
    rewrite atrace_dispatchedA. cbn [atrace aheap].
    rewrite drop_app_length. split; [done|].
    unfold dispatchedA. cbn [aheap aext].
    by destruct (d c h (aext w)) as [[r h'] x].
  - destruct Hrun as (h & Hrun).
    unfold issuedA, afterA, outcomeA. rewrite Hrun. cbn [fst snd atrace].
    split; [done|]. split; [by rewrite drop_all|].
    by apply readFilter_Abrupt.
Qed.

(** C4, as stated, fails: [getBounces] given a filter whose [count] is an
    accessor with a getter that raises, raises that error itself, although
    the dispatcher fulfils every call and is never called. *)
Lemma list_method_raises_the_getters_error :
  let filter := mkAObject ∅ [("count", Abrupt (VStr "boom"))] in
  let w := mkAWorld {[ 1%positive := filter ]} () [] in
  outcomeA (answeringA (Fulfilled VNull))
    (ServerClient.getBounces (Some 1%positive) None) w
    = Abrupt (VStr "boom") ∧
  issuedA (answeringA (Fulfilled VNull))
    (ServerClient.getBounces (Some 1%positive) None) w = [].
Proof. split; reflexivity. Qed.

(** C6, as the code has it: an invocation makes exactly one call of the
    dispatcher and ends the way that call ends, with the one promise the
    dispatcher returned, the dispatcher's state being the one that call
    left; unless it is a list method whose filter has a getter that raises:
    then it makes no call, leaves the dispatcher's state as it is, and ends
    with the getter's error instead of a promise. *)
Theorem one_call_one_result_unless_a_getter_raises
    {nr : NumberRendering}
    {Ext : Type} (d : ADispatcher Ext) (i : Invocation) (w : AWorld Ext) :
  match readFilter i (aheap w) with
  | Normal _ =>
      ∃ c h,
        issuedA d (invoke i) w = [(c, h)] ∧
        length (issuedA d (invoke i) w) = 1%nat ∧
        atrace (afterA d (invoke i) w) = atrace w ++ [(c, h)] ∧
        outcomeA d (invoke i) w = (d c h (aext w)).1.1 ∧
        aext (afterA d (invoke i) w) = (d c h (aext w)).2
  | Abrupt e =>
      issuedA d (invoke i) w = [] ∧
      atrace (afterA d (invoke i) w) = atrace w ∧
      aext (afterA d (invoke i) w) = aext w ∧
      outcomeA d (invoke i) w = Abrupt e
  end.
Proof.
  pose proof (runA_invoke d i w) as Hrun.
  destruct (readFilter i (aheap w)) as [o|e].
  - destruct Hrun as (c & h & _ & _ & Hrun). exists c, h.
    unfold issuedA, afterA, outcomeA. rewrite Hrun.
    rewrite atrace_dispatchedA. cbn [atrace aheap].
    rewrite drop_app_length. unfold dispatchedA. cbn [aheap aext].
    by destruct (d c h (aext w)) as [[r h'] x].
  - destruct Hrun as (h & Hrun).
    unfold issuedA, afterA, outcomeA. rewrite Hrun. cbn [fst snd atrace aext].
    by rewrite drop_all.
Qed.

(** C6, as stated, fails: [getInboundMessages] given a filter with a getter
    that raises makes no call of the dispatcher and returns no promise. *)
Lemma raising_getter_no_call_no_result :
  let filter :=
    mkAObject {[ "count" := VNum 10 ]} [("fromdate", Abrupt VNull)] in
  let w := mkAWorld {[ 4%positive := filter ]} () [] in
  length (issuedA (answeringA (Fulfilled VNull))
            (ServerClient.getInboundMessages (Some 4%positive) None) w)
    = 0%nat ∧
  ∀ p, outcomeA (answeringA (Fulfilled VNull))
         (ServerClient.getInboundMessages (Some 4%positive) None) w
       ≠ Normal p.
Proof. split; [reflexivity|]. intros p. discriminate. Qed.

(** ** Sequences of invocations *)

(** X8: a sequence of invocations makes at most one call for each
    invocation, in the order of the invocations: the calls made are those
    of the invocations whose filter is read without a getter raising, each
    with the verb and path of its method and the callback it was given.
    This holds whether or not the dispatcher raises on some of them. *)
Theorem calls_follow_the_invocations
    {nr : NumberRendering}
    {Ext : Type} (d : ADispatcher Ext) (invs : list Invocation)
    (w : AWorld Ext) :
  ∃ es,
    atrace (runAllA d invs w) = atrace w ++ es ∧
    map (λ e, lineOf e.1) es
      = map (λ i, (interfaceTable i, invocation_callback i))
          (reachingCalls d invs w) ∧
    sublist (reachingCalls d invs w) invs.
Proof.
  revert w. induction invs as [|i invs IH]; intros w.
  - exists []. rewrite app_nil_r. by split; [|split; [|constructor]].
  - destruct (IH (afterA d (invoke i) w)) as (es & Ht & Hes & Hsub).
    cbn [runAllA foldl reachingCalls].
    fold (runAllA d invs (afterA d (invoke i) w)).
    pose proof (runA_invoke d i w) as Hrun.
    destruct (readFilter i (aheap w)) as [o|e].
    + destruct Hrun as (c & h & _ & Hl & Hrun).
      exists ((c, h) :: es). split; [|split].
      * rewrite Ht. unfold afterA. rewrite Hrun, atrace_dispatchedA.
        cbn [atrace aheap]. by rewrite <- app_assoc.
      * cbn [map fst]. by rewrite Hes, Hl.
      * by constructor.
    + destruct Hrun as (h & Hrun). exists es. split; [|split].
      * rewrite Ht. unfold afterA. by rewrite Hrun.
      * exact Hes.
      * by constructor.
Qed.

(** ** Heaps of data objects *)

Lemma liftHeap_insert (h : Heap) (l : loc) (o : obj) :
  liftHeap (<[l := o]> h) = <[l := dataObject o]> (liftHeap h).
Proof. unfold liftHeap. apply fmap_insert. Qed.

Lemma objectAt_liftHeap (h : Heap) (l : loc) :
  objectAt (liftHeap h) l = dataObject (ownProps h l).
Proof.
  unfold objectAt, ownProps, liftHeap. rewrite lookup_fmap.
  by destruct (h !! l).
Qed.

Lemma data_liftHeap (h : Heap) : ao_data <$> liftHeap h = h.
Proof.
  unfold liftHeap. rewrite <- map_fmap_compose. apply map_eq. intros l.
  rewrite lookup_fmap. by destruct (h !! l).
Qed.

Lemma fresh_liftHeap (h : Heap) : fresh (dom (liftHeap h)) = fresh (dom h).
Proof. unfold liftHeap. by rewrite dom_fmap_L. Qed.

(** On a heap of data objects a run is the run of [run]: reading never
    raises there. *)
Lemma runA_liftWorld {Ext R} (d : Dispatcher Ext) (p : Prog R)
    (w : World Ext) :
  runA (liftDispatcher d) p (liftWorld w)
    = ((run d p w).1, liftWorld (run d p w).2).
Proof.
  revert w. induction p as [r|e|o k IH|l k IH|l o k IH|c k IH]; intros w.
  - reflexivity.
  - reflexivity.
  - change (run d (NewObject o k) w)
      with (run d (k (fresh (dom (heap w))))
              (mkWorld (<[fresh (dom (heap w)) := o]> (heap w)) (ext w)
                 (trace w))).
    rewrite <- IH.
    change (runA (liftDispatcher d) (NewObject o k) (liftWorld w))
      with (runA (liftDispatcher d) (k (fresh (dom (liftHeap (heap w)))))
              (mkAWorld
                 (<[fresh (dom (liftHeap (heap w))) := dataObject o]>
                    (liftHeap (heap w)))
                 (ext w) (map (λ e, (e.1, liftHeap e.2)) (trace w)))).
    rewrite fresh_liftHeap, <- liftHeap_insert. reflexivity.
  - change (run d (OwnProps l k) w) with (run d (k (ownProps (heap w) l)) w).
    rewrite <- IH.
    change (runA (liftDispatcher d) (OwnProps l k) (liftWorld w))
      with (match readProps (objectAt (liftHeap (heap w)) l) with
            | Normal o => runA (liftDispatcher d) (k o) (liftWorld w)
            | Abrupt e => (Abrupt e, liftWorld w)
            end).
    by rewrite objectAt_liftHeap.
  - change (run d (DefineProps l o k) w)
      with (run d k (mkWorld (define (heap w) l o) (ext w) (trace w))).
    rewrite <- IH.
    change (runA (liftDispatcher d) (DefineProps l o k) (liftWorld w))
      with (runA (liftDispatcher d) k
              (mkAWorld
                 (<[l := defineData (objectAt (liftHeap (heap w)) l) o]>
                    (liftHeap (heap w)))
                 (ext w) (map (λ e, (e.1, liftHeap e.2)) (trace w)))).
    rewrite objectAt_liftHeap.
    change (defineData (dataObject (ownProps (heap w) l)) o)
      with (dataObject (spread (ownProps (heap w) l) o)).
    rewrite <- liftHeap_insert. reflexivity.
  - cbn [runA run]. cbn [aheap aext atrace liftWorld heap ext trace].
    unfold liftDispatcher. rewrite data_liftHeap.
    destruct (d c (heap w) (ext w)) as [[[p|e] h] x].
    + rewrite <- (IH p (mkWorld h x (trace w ++ [(c, heap w)]))).
      unfold liftWorld. cbn [heap ext trace]. by rewrite map_app.
    + cbn [fst snd]. unfold liftWorld. cbn [heap ext trace].
      by rewrite map_app.
Qed.
